(** * The parallel scheduling core of aide ([aide/parallel_agent.py])

    A shallow embedding of [ParallelWorker] and [ParallelAgent]: the
    two-phase step (propose, then evaluate), the partition of the pending
    nodes over the pool, the aggregation into the journal and the pool
    teardown, followed by the properties of the scheduler that the design
    document states. *)

From stdpp Require Import base list strings.
From Stdlib Require Import Lia.

(** ** Exceptions and results *)

(** The Python exceptions that the module can see.  [Exception] stands for
    whatever a collaborator (proposal engine, sandbox, metric derivation,
    persistence) raises, with its [str(e)]. *)
Inductive exn : Type :=
| ZeroDivisionError
| IndexError
| RaySystemError
| Exception (msg : string).

Inductive result (A : Type) : Type :=
| Ok (a : A)
| Raise (e : exn).
Arguments Ok {A} a.
Arguments Raise {A} e.

(** ** The partition of the pending nodes (lines 135-142 of [step]) *)

(** [l[start:stop]] for non-negative bounds. *)
Definition py_slice {A} (l : list A) (start stop : nat) : list A :=
  take (stop - start) (drop start l).

(** [a // b] on non-negative integers. *)
Definition floordiv (a b : nat) : result nat :=
  if decide (b = 0) then Raise ZeroDivisionError else Ok (a / b).

(** [max(1, len(all_nodes) // len(self.workers))] *)
Definition nodes_per_executor (total pool : nat) : result nat :=
  match floordiv total pool with
  | Ok q => Ok (max 1 q)
  | Raise e => Raise e
  end.

(** [start_idx] and [end_idx] of worker [i]. *)
Definition slice_bounds (total pool npe i : nat) : nat * nat :=
  let start_idx := i * npe in
  let end_idx := if decide (i < pool - 1) then start_idx + npe else total in
  (start_idx, end_idx).

(** [worker_nodes] of worker [i]. *)
Definition worker_slice {A} (all_nodes : list A) (pool npe i : nat) : list A :=
  let '(start_idx, end_idx) := slice_bounds (length all_nodes) pool npe i in
  py_slice all_nodes start_idx end_idx.

(** The slices in the order of [enumerate(self.workers)]. *)
Definition partition {A} (all_nodes : list A) (pool : nat) : result (list (list A)) :=
  match nodes_per_executor (length all_nodes) pool with
  | Ok npe => Ok (worker_slice all_nodes pool npe <$> seq 0 pool)
  | Raise e => Raise e
  end.

(** The sizes that the design document gives to the slices: the floor of
    [total / pool] for every slice but the last, which takes the remainder
    too. *)
Definition floor_sized {A} (all_nodes : list A) (pool : nat)
    (slices : list (list A)) : Prop :=
  ∀ i s, slices !! i = Some s →
    length s = if decide (i < pool - 1) then length all_nodes / pool
               else length all_nodes / pool + length all_nodes `mod` pool.

(** The sizes of any two slices are at most [gap] apart. *)
Definition sizes_within {A} (gap : nat) (slices : list (list A)) : Prop :=
  ∀ i j a b, slices !! i = Some a → slices !! j = Some b →
    length a ≤ length b + gap.

(** ** A state monad with exceptions

    A Python method is a function of the object's state that returns a value
    or raises; what it has written to the state before raising stays
    written. *)

Definition M (S A : Type) : Type := S → result A * S.

Definition ret {S A} (a : A) : M S A := λ s, (Ok a, s).

Definition bind {S A B} (m : M S A) (k : A → M S B) : M S B :=
  λ s, match m s with
       | (Ok a, s') => k a s'
       | (Raise e, s') => (Raise e, s')
       end.

Definition raise {S A} (e : exn) : M S A := λ s, (Raise e, s).

(** [try: m except Exception as e: h e] *)
Definition try_except {S A} (m : M S A) (h : exn → M S A) : M S A :=
  λ s, match m s with
       | (Ok a, s') => (Ok a, s')
       | (Raise e, s') => h e s'
       end.

Definition gets {S A} (f : S → A) : M S A := λ s, (Ok (f s), s).
Definition modify {S} (f : S → S) : M S unit := λ s, (Ok tt, f s).
Definition lift_result {S A} (r : result A) : M S A := λ s, (r, s).

#[global] Instance M_ret {S} : MRet (M S) := λ A, ret.
#[global] Instance M_bind {S} : MBind (M S) := λ A B k m, bind m k.

(** [for x in l: body x] *)
Fixpoint for_each {S A} (l : list A) (body : A → M S unit) : M S unit :=
  match l with
  | [] => ret tt
  | x :: l' => _ ← body x; for_each l' body
  end.

(** [[f x for x in l]] *)
Fixpoint map_M {S A B} (f : A → M S B) (l : list A) : M S (list B) :=
  match l with
  | [] => ret []
  | x :: l' => y ← f x; ys ← map_M f l'; ret (y :: ys)
  end.

(** A loop that carries its local variables in [acc]. *)
Fixpoint fold_M {S A B} (f : B → A → M S B) (acc : B) (l : list A) : M S B :=
  match l with
  | [] => ret acc
  | x :: l' => acc' ← f acc x; fold_M f acc' l'
  end.

(** [ray.get(futures)]: the values in the order of the futures, or the first
    exception among them. *)
Fixpoint ray_get {A} (futures : list (result A)) : result (list A) :=
  match futures with
  | [] => Ok []
  | Ok a :: fs =>
      match ray_get fs with
      | Ok vs => Ok (a :: vs)
      | Raise e => Raise e
      end
  | Raise e :: _ => Raise e
  end.

(** [m] keeps the invariant [I] of the state, whether it returns or raises. *)
Definition maintains {S A} (I : S → Prop) (m : M S A) : Prop :=
  ∀ s, I s → I (m s).2.

(** Every value that [m] returns satisfies [P]. *)
Definition returns {S A} (m : M S A) (P : A → Prop) : Prop :=
  ∀ s a s', m s = (Ok a, s') → P a.

(** [str(e)] *)
Definition str (e : exn) : string :=
  match e with
  | ZeroDivisionError => "integer division or modulo by zero"
  | IndexError => "list index out of range"
  | RaySystemError => "Ray has not been started yet."
  | Exception msg => msg
  end.

(** ** Nodes and the journal *)

(** Modelled from the spec: the [Node] of [aide/journal.py], which is not
    among the sources.  A node has a unique id, its code, a back-reference to
    its parent (none for a draft), the raw execution artifact it has
    absorbed, and the two fields that evaluation sets, [is_buggy] and
    [metric]; [None] is Python's [None]. *)
Record Node (Scalar Artifact : Type) : Type := mkNode {
  id : string;
  code : string;
  parent : option string;
  exec_result : option Artifact;
  is_buggy : option bool;
  metric : option Scalar;
}.
Arguments mkNode {Scalar Artifact}.
Arguments id {Scalar Artifact}.
Arguments code {Scalar Artifact}.
Arguments parent {Scalar Artifact}.
Arguments exec_result {Scalar Artifact}.
Arguments is_buggy {Scalar Artifact}.
Arguments metric {Scalar Artifact}.

(** [if node.is_buggy:] *)
Definition truthy (b : option bool) : bool :=
  match b with Some true => true | _ => false end.

(** Modelled from the spec: [node.absorb_exec_result(result)] stores the raw
    artifact in the node. *)
Definition absorb_exec_result {Scalar Artifact}
    (node : Node Scalar Artifact) (result : Artifact) : Node Scalar Artifact :=
  {| id := id node; code := code node; parent := parent node;
     exec_result := Some result;
     is_buggy := is_buggy node; metric := metric node |}.

(** The node with the verdict of the metric derivation written to it. *)
Definition set_verdict {Scalar Artifact}
    (node : Node Scalar Artifact) (verdict : bool * option Scalar) : Node Scalar Artifact :=
  {| id := id node; code := code node; parent := parent node;
     exec_result := exec_result node;
     is_buggy := Some verdict.1; metric := verdict.2 |}.

(** Modelled from the spec: the [Journal] of [aide/journal.py], the
    collection of all nodes in arrival order and the secondary list of draft
    nodes. *)
Record Journal (Scalar Artifact : Type) : Type := mkJournal {
  nodes : list (Node Scalar Artifact);
  draft_nodes : list (Node Scalar Artifact);
}.
Arguments mkJournal {Scalar Artifact}.
Arguments nodes {Scalar Artifact}.
Arguments draft_nodes {Scalar Artifact}.

(** Modelled from the spec: [Journal.append], which puts the node at the end
    of the main collection. *)
Definition Journal_append {Scalar Artifact}
    (j : Journal Scalar Artifact) (node : Node Scalar Artifact) : Journal Scalar Artifact :=
  {| nodes := nodes j ++ [node]; draft_nodes := draft_nodes j |}.

(** [self.journal.draft_nodes.append(node)] *)
Definition draft_nodes_append {Scalar Artifact}
    (j : Journal Scalar Artifact) (node : Node Scalar Artifact) : Journal Scalar Artifact :=
  {| nodes := nodes j; draft_nodes := draft_nodes j ++ [node] |}.

(** ** Configuration *)

(** The fields of [Config] that the module reads; the two counts are
    natural numbers. *)
Record Config : Type := mkConfig {
  workspace_dir : string;
  log_dir : string;
  cfg_agent_data_preview : bool;
  cfg_num_workers : nat;
  cfg_nodes_per_worker : nat;
}.

(** ** The collaborators

    The proposal engine, the search policy, the sandbox, the metric
    derivation, the data preview and the persistence are outside the module.
    A worker reaches the first four through the state it inherits from
    [Agent] and through its [Interpreter]: [Core] is that state, and each
    operation may change it and may raise. *)
Class Collaborators : Type := {
  Scalar : Type;
  (** [value > best_metric] on metric values *)
  scalar_gt : Scalar → Scalar → bool;
  (** [value > float('-inf')] *)
  gt_neg_inf : Scalar → bool;
  ExecutionResult : Type;
  Core : Type;
  (** [Agent.__init__] and [Interpreter(...)] of a new worker *)
  new_core : string → Config → Journal Scalar ExecutionResult → Core;
  search_policy : M Core (option (Node Scalar ExecutionResult));
  _draft : M Core (Node Scalar ExecutionResult);
  _debug : Node Scalar ExecutionResult → M Core (Node Scalar ExecutionResult);
  _improve : Node Scalar ExecutionResult → M Core (Node Scalar ExecutionResult);
  (** [self.interpreter.run(code, reset_session)] *)
  interpreter_run : string → bool → M Core ExecutionResult;
  (** the metric collaborator behind [parse_exec_result] *)
  classify : Node Scalar ExecutionResult → ExecutionResult → M Core (bool * option Scalar);
  (** [self.interpreter.cleanup_session()] *)
  cleanup_session : M Core unit;
  (** [dp.generate(workspace_dir)] *)
  dp_generate : string → string;
  save_run : Config → Journal Scalar ExecutionResult → result unit;
}.

Section Model.
Context `{Collaborators}.

Abbreviation node := (Node Scalar ExecutionResult).
Abbreviation journal_t := (Journal Scalar ExecutionResult).

(** ** Logging *)

Inductive level : Type := INFO | ERROR.

(** The messages of the module, with the values that their f-strings
    interpolate. *)
Inductive message : Type :=
| Generating (num_nodes : nat) (parent_node : option node)
| Generated (count : nat)
| Executing (actor : nat) (node_id : string)
| Completed (actor : nat) (node_id : string) (value : option Scalar)
| FailedExecuting (actor : nat) (node_id : string) (err : string)
| SelectedParent (parent_id : option string)
| StartingStep (step_num : nat)
| UpdatedDataPreview
| WaitingForGeneration (step_num : nat)
| GeneratedTotal (step_num total_nodes : nat)
| Distributing (step_num total_nodes pool : nat)
| WorkerAssigned (step_num i count : nat)
| WaitingForExecutions (step_num count : nat)
| AllExecutionsCompleted (step_num : nat)
| StepCompleted (step_num successful_nodes buggy_nodes : nat) (best_metric : option Scalar)
| SavedRun (step_num : nat) (dir : string)
| FailedToSave (step_num : nat) (err : string).

Definition log_record : Type := level * message.

(** ** ParallelWorker *)

Record ParallelWorker : Type := mkWorker {
  (** the inherited [Agent] state and [self.interpreter] *)
  core : Core;
  w_data_preview : option string;
  actor_id : nat;
  w_logger : list log_record;
}.

Definition set_core (w : ParallelWorker) (c : Core) : ParallelWorker :=
  {| core := c; w_data_preview := w_data_preview w;
     actor_id := actor_id w; w_logger := w_logger w |}.

Definition w_log (lvl : level) (msg : message) : M ParallelWorker unit :=
  modify (λ w, {| core := core w; w_data_preview := w_data_preview w;
                  actor_id := actor_id w; w_logger := w_logger w ++ [(lvl, msg)] |}).

(** A call into the inherited agent or the interpreter. *)
Definition lift_core {A} (m : M Core A) : M ParallelWorker A :=
  λ w, let '(r, c) := m (core w) in (r, set_core w c).

Definition ParallelWorker_init (task_desc : string) (cfg : Config) (journal : journal_t)
    (data_preview : option string) (actor : nat) : ParallelWorker :=
  {| core := new_core task_desc cfg journal;
     w_data_preview := data_preview;
     actor_id := actor;
     w_logger := [] |}.

(** Modelled from the spec: [Agent.parse_exec_result], which derives
    [is_buggy] and [metric] from the artifact through the metric
    collaborator and writes them to the node. *)
Definition parse_exec_result (n : node) (result : ExecutionResult) : M ParallelWorker node :=
  verdict ← lift_core (classify n result);
  mret (set_verdict n verdict).

Definition generate_nodes (parent_node : option node) (num_nodes : nat)
    : M ParallelWorker (list node) :=
  w_log INFO (Generating num_nodes parent_node);;
  nodes ← fold_M (λ nodes _,
             n ← match parent_node with
                 | None => lift_core _draft
                 | Some p =>
                     if truthy (is_buggy p) then lift_core (_debug p)
                     else lift_core (_improve p)
                 end;
             mret (nodes ++ [n]))
           [] (seq 0 num_nodes);
  w_log INFO (Generated (length nodes));;
  mret nodes.

Definition execute_and_evaluate_node (n : node) : M ParallelWorker node :=
  try_except
    (actor ← gets actor_id;
     w_log INFO (Executing actor (id n));;
     result ← lift_core (interpreter_run (code n) true);
     let n := absorb_exec_result n result in
     n ← parse_exec_result n result;
     w_log INFO (Completed actor (id n) (metric n));;
     mret n)
    (λ e,
     actor ← gets actor_id;
     w_log ERROR (FailedExecuting actor (id n) (str e));;
     raise e).

Definition get_data_preview : M ParallelWorker (option string) :=
  gets w_data_preview.

Definition cleanup_interpreter : M ParallelWorker unit :=
  lift_core cleanup_session.

Definition search_and_generate (num_nodes : nat) : M ParallelWorker (list node) :=
  parent_node ← lift_core search_policy;
  w_log INFO (SelectedParent (id <$> parent_node));;
  generate_nodes parent_node num_nodes.

(** The evaluation of [n] on worker [w] fails with [e], leaving the worker's
    core as [c]: the sandbox raises [e], or the sandbox returns and the
    metric derivation raises [e]. *)
Definition evaluation_fails (n : node) (w : ParallelWorker) (e : exn) (c : Core) : Prop :=
  interpreter_run (code n) true (core w) = (Raise e, c) ∨
  ∃ r c1,
    interpreter_run (code n) true (core w) = (Ok r, c1) ∧
    classify (absorb_exec_result n r) r c1 = (Raise e, c).

(** ** ParallelAgent *)

(** The remote methods of a worker. *)
Inductive method : Type :=
| Call_search_and_generate
| Call_execute_and_evaluate_node
| Call_get_data_preview
| Call_cleanup_interpreter.

(** The scheduler, together with the part of the Ray runtime that it drives:
    the actors behind the handles in [self.workers], whether the runtime is
    up, and the remote calls submitted so far.  [data_preview] is [None]
    while the object has no such attribute. *)
Record ParallelAgent : Type := mkAgent {
  cfg : Config;
  journal : journal_t;
  data_preview : option (option string);
  num_workers : nat;
  nodes_per_worker : nat;
  logger : list log_record;
  workers : list ParallelWorker;
  ray_initialized : bool;
  ray_calls : list (nat * method);
}.

Definition set_journal (s : ParallelAgent) (j : journal_t) : ParallelAgent :=
  {| cfg := cfg s; journal := j; data_preview := data_preview s;
     num_workers := num_workers s; nodes_per_worker := nodes_per_worker s;
     logger := logger s; workers := workers s;
     ray_initialized := ray_initialized s; ray_calls := ray_calls s |}.

Definition set_data_preview (s : ParallelAgent) (v : option string) : ParallelAgent :=
  {| cfg := cfg s; journal := journal s; data_preview := Some v;
     num_workers := num_workers s; nodes_per_worker := nodes_per_worker s;
     logger := logger s; workers := workers s;
     ray_initialized := ray_initialized s; ray_calls := ray_calls s |}.

Definition add_log (s : ParallelAgent) (r : log_record) : ParallelAgent :=
  {| cfg := cfg s; journal := journal s; data_preview := data_preview s;
     num_workers := num_workers s; nodes_per_worker := nodes_per_worker s;
     logger := logger s ++ [r]; workers := workers s;
     ray_initialized := ray_initialized s; ray_calls := ray_calls s |}.

(** The state after worker [i] has run a task submitted as [m]. *)
Definition ran_task (s : ParallelAgent) (i : nat) (m : method) (w : ParallelWorker)
    : ParallelAgent :=
  {| cfg := cfg s; journal := journal s; data_preview := data_preview s;
     num_workers := num_workers s; nodes_per_worker := nodes_per_worker s;
     logger := logger s; workers := <[i := w]> (workers s);
     ray_initialized := ray_initialized s;
     ray_calls := ray_calls s ++ [(i, m)] |}.

Definition set_ray_initialized (s : ParallelAgent) (b : bool) : ParallelAgent :=
  {| cfg := cfg s; journal := journal s; data_preview := data_preview s;
     num_workers := num_workers s; nodes_per_worker := nodes_per_worker s;
     logger := logger s; workers := workers s;
     ray_initialized := b; ray_calls := ray_calls s |}.

Definition log (lvl : level) (msg : message) : M ParallelAgent unit :=
  modify (λ s, add_log s (lvl, msg)).

(** [self.workers[i].m.remote(...)]: the task is submitted to actor [i], which
    runs it on its own state; the future holds what the task returned or
    raised.  Submitting to an actor of a runtime that has been shut down
    raises.  The actors share no state and each runs its tasks in the order
    of submission, so running a task when it is submitted gives the same
    futures as any interleaving. *)
Definition remote {A} (i : nat) (m : method) (task : M ParallelWorker A)
    : M ParallelAgent (result A) :=
  λ s, if ray_initialized s then
         match workers s !! i with
         | Some w => let '(r, w') := task w in (Ok r, ran_task s i m w')
         | None => (Raise IndexError, s)
         end
       else (Raise RaySystemError, s).

(** [ray.shutdown()] *)
Definition ray_shutdown : M ParallelAgent unit :=
  modify (λ s, set_ray_initialized s false).

Definition ParallelAgent_init (task_desc : string) (c : Config) (j : journal_t)
    : ParallelAgent :=
  let preview :=
    if cfg_agent_data_preview c then Some (dp_generate (workspace_dir c)) else None in
  {| cfg := c; journal := j;
     data_preview := Some preview;
     num_workers := cfg_num_workers c;
     nodes_per_worker := cfg_nodes_per_worker c;
     logger := [];
     workers := ParallelWorker_init task_desc c j preview <$> seq 0 (cfg_num_workers c);
     ray_initialized := true;
     ray_calls := [] |}.

Definition update_data_preview : M ParallelAgent unit :=
  attr ← gets data_preview;
  match attr with
  | Some _ => mret tt
  | None =>
      pool ← gets (λ s, length (workers s));
      if decide (pool = 0) then raise IndexError
      else
        future ← remote 0 Call_get_data_preview get_data_preview;
        v ← lift_result future;
        modify (λ s, set_data_preview s v)
  end.

(** Lines 116-132: every worker searches and generates; the responses are
    concatenated in pool order. *)
Definition propose (step_num : nat) : M ParallelAgent (list node) :=
  k ← gets nodes_per_worker;
  pool ← gets (λ s, length (workers s));
  node_futures ← map_M (λ i, remote i Call_search_and_generate (search_and_generate k))
                   (seq 0 pool);
  log INFO (WaitingForGeneration step_num);;
  generated_nodes ← lift_result (ray_get node_futures);
  let total_nodes := sum_list (length <$> generated_nodes) in
  log INFO (GeneratedTotal step_num total_nodes);;
  mret (concat generated_nodes).

(** Lines 139-146, the body of the loop for worker [i]. *)
Definition assign (step_num : nat) (all_nodes : list node) (pool npe : nat)
    (exec_futures : list (result node)) (i : nat) : M ParallelAgent (list (result node)) :=
  let worker_nodes := worker_slice all_nodes pool npe i in
  log INFO (WorkerAssigned step_num i (length worker_nodes));;
  futures ← map_M (λ n, remote i Call_execute_and_evaluate_node
                          (execute_and_evaluate_node n))
              worker_nodes;
  mret (exec_futures ++ futures).

(** Lines 134-146: the pending nodes are distributed over the workers and
    submitted for evaluation. *)
Definition dispatch (step_num : nat) (all_nodes : list node)
    : M ParallelAgent (list (result node)) :=
  pool ← gets (λ s, length (workers s));
  npe ← lift_result (nodes_per_executor (length all_nodes) pool);
  log INFO (Distributing step_num (length all_nodes) pool);;
  fold_M (assign step_num all_nodes pool npe) [] (seq 0 pool).

(** Lines 148-151: the second barrier. *)
Definition collect (step_num : nat) (exec_futures : list (result node))
    : M ParallelAgent (list node) :=
  log INFO (WaitingForExecutions step_num (length exec_futures));;
  evaluated_nodes ← lift_result (ray_get exec_futures);
  log INFO (AllExecutionsCompleted step_num);;
  mret evaluated_nodes.

(** The local variables of the aggregation loop; [best_metric] is [None]
    while it is [float('-inf')]. *)
Record statistics : Type := mkStatistics {
  successful_nodes : nat;
  buggy_nodes : nat;
  best_metric : option Scalar;
}.

Definition track (st : statistics) (n : node) : statistics :=
  if truthy (is_buggy n) then
    {| successful_nodes := successful_nodes st;
       buggy_nodes := S (buggy_nodes st);
       best_metric := best_metric st |}
  else
    {| successful_nodes := S (successful_nodes st);
       buggy_nodes := buggy_nodes st;
       best_metric :=
         match metric n with
         | Some value =>
             let greater :=
               match best_metric st with
               | None => gt_neg_inf value
               | Some best => scalar_gt value best
               end in
             if greater then Some value else best_metric st
         | None => best_metric st
         end |}.

(** Lines 158-169, the body of the loop for one evaluated node. *)
Definition aggregate_node (st : statistics) (n : node) : M ParallelAgent statistics :=
  match parent n with
  | None => modify (λ s, set_journal s (draft_nodes_append (journal s) n))
  | Some _ => mret tt
  end;;
  modify (λ s, set_journal s (Journal_append (journal s) n));;
  mret (track st n).

(** Lines 153-176. *)
Definition aggregate (step_num : nat) (evaluated_nodes : list node) : M ParallelAgent unit :=
  st ← fold_M aggregate_node
         {| successful_nodes := 0; buggy_nodes := 0; best_metric := None |}
         evaluated_nodes;
  log INFO (StepCompleted step_num (successful_nodes st) (buggy_nodes st) (best_metric st)).

(** Lines 178-184. *)
Definition save_results (step_num : nat) : M ParallelAgent unit :=
  try_except
    (c ← gets cfg;
     j ← gets journal;
     lift_result (save_run c j);;
     log INFO (SavedRun step_num (log_dir c)))
    (λ e, log ERROR (FailedToSave step_num (str e))).

(** Lines 109-114. *)
Definition start_step : M ParallelAgent nat :=
  step_num ← gets (λ s, length (nodes (journal s)));
  log INFO (StartingStep step_num);;
  j ← gets journal;
  match nodes j with
  | [] => update_data_preview;; log INFO UpdatedDataPreview
  | _ :: _ => mret tt
  end;;
  mret step_num.

(** The step up to the submission of the evaluations (lines 109-146): the
    step number and [exec_futures]. *)
Definition submitted : M ParallelAgent (nat * list (result node)) :=
  step_num ← start_step;
  all_nodes ← propose step_num;
  exec_futures ← dispatch step_num all_nodes;
  mret (step_num, exec_futures).

(** The step up to the end of the aggregation (lines 109-176). *)
Definition aggregated : M ParallelAgent nat :=
  '(step_num, exec_futures) ← submitted;
  evaluated_nodes ← collect step_num exec_futures;
  aggregate step_num evaluated_nodes;;
  mret step_num.

Definition step : M ParallelAgent unit :=
  step_num ← aggregated;
  save_results step_num.

Definition cleanup : M ParallelAgent unit :=
  pool ← gets (λ s, length (workers s));
  for_each (seq 0 pool)
    (λ i, future ← remote i Call_cleanup_interpreter cleanup_interpreter;
          lift_result future);;
  ray_shutdown.

(** The states of a scheduler: what the constructor builds, and what a call
    of [step] or [cleanup] leaves, whether it returns or raises. *)
Inductive reachable (task_desc : string) (c : Config) (j : journal_t)
    : ParallelAgent → Prop :=
| reachable_init : reachable task_desc c j (ParallelAgent_init task_desc c j)
| reachable_step s : reachable task_desc c j s → reachable task_desc c j (step s).2
| reachable_cleanup s : reachable task_desc c j s → reachable task_desc c j (cleanup s).2.

(** The pool and the two counts are those of the configuration for the
    scheduler's lifetime. *)
Definition shaped (c : Config) (s : ParallelAgent) : Prop :=
  length (workers s) = cfg_num_workers c ∧
  num_workers s = cfg_num_workers c ∧
  nodes_per_worker s = cfg_nodes_per_worker c.

(** A worker has been asked for its data preview. *)
Definition fetched_preview (s : ParallelAgent) : Prop :=
  ∃ i, (i, Call_get_data_preview) ∈ ray_calls s.

(** The preview is the one of the constructor and no worker has been asked
    for its own. *)
Definition preview_cached (v : option string) (s : ParallelAgent) : Prop :=
  data_preview s = Some v ∧ ¬ fetched_preview s.

(** What the constructor stores as the data preview. *)
Definition initial_preview (c : Config) : option string :=
  if cfg_agent_data_preview c then Some (dp_generate (workspace_dir c)) else None.

End Model.

(** ** A small instance of the collaborators

    Every worker drafts: the search policy selects no parent, and a draft
    carries the task description as its code.  The sandbox crashes on the
    code ["crash"], the metric derivation raises on ["unscorable"], a program
    that is ["buggy"] runs and is classified as such, and persistence fails
    when the log directory is empty. *)
Module Demo.

Definition draft : M string (Node nat string) :=
  λ task, (Ok {| id := "draft"; code := task; parent := None;
                 exec_result := None; is_buggy := None; metric := None |}, task).

Definition child (p : Node nat string) : M string (Node nat string) :=
  λ task, (Ok {| id := "child"; code := task; parent := Some (id p);
                 exec_result := None; is_buggy := None; metric := None |}, task).

Definition run (code : string) (reset_session : bool) : M string string :=
  if decide (code = "crash") then raise (Exception "sandbox crashed")
  else ret "stdout".

Definition review (n : Node nat string) (artifact : string)
    : M string (bool * option nat) :=
  if decide (code n = "unscorable") then raise (Exception "no metric")
  else if decide (code n = "buggy") then ret (true, None)
  else ret (false, Some 1).

Definition save (c : Config) (j : Journal nat string) : result unit :=
  if decide (log_dir c = "") then Raise (Exception "cannot write") else Ok tt.

#[local] Instance collaborators : Collaborators := {|
  Scalar := nat;
  scalar_gt := λ a b, bool_decide (b < a);
  gt_neg_inf := λ _, true;
  ExecutionResult := string;
  Core := string;
  new_core := λ task_desc _ _, task_desc;
  search_policy := ret None;
  _draft := draft;
  _debug := child;
  _improve := child;
  interpreter_run := run;
  classify := review;
  cleanup_session := ret tt;
  dp_generate := λ dir, "files of " +:+ dir;
  save_run := save;
|}.

Definition config (pool k : nat) (logs : string) : Config :=
  {| workspace_dir := "ws"; log_dir := logs; cfg_agent_data_preview := true;
     cfg_num_workers := pool; cfg_nodes_per_worker := k |}.

Definition empty_journal : Journal nat string := {| nodes := []; draft_nodes := [] |}.

Definition agent (task : string) (pool k : nat) (logs : string) : ParallelAgent :=
  ParallelAgent_init task (config pool k logs) empty_journal.

(** Two workers, two drafts each, all of which run. *)
Definition healthy : ParallelAgent := agent "print(1)" 2 2 "logs".

(** Two workers, one draft each, on which the sandbox crashes. *)
Definition crashing : ParallelAgent := agent "crash" 2 1 "logs".

(** One worker, one draft, and a log directory that cannot be written. *)
Definition unsaved : ParallelAgent := agent "print(1)" 1 1 "".

Definition worker (task : string) : ParallelWorker :=
  ParallelWorker_init task (config 1 1 "logs") empty_journal None 0.

Definition a_node (c : string) : Node nat string :=
  {| id := "n1"; code := c; parent := None;
     exec_result := None; is_buggy := None; metric := None |}.

End Demo.

(** A collaborator set in which the proposal engine fails: no draft is
    produced. *)
Module Stalled.

#[local] Instance collaborators : Collaborators := {|
  Scalar := nat;
  scalar_gt := λ a b, bool_decide (b < a);
  gt_neg_inf := λ _, true;
  ExecutionResult := string;
  Core := string;
  new_core := λ task_desc _ _, task_desc;
  search_policy := ret None;
  _draft := raise (Exception "no proposal");
  _debug := Demo.child;
  _improve := Demo.child;
  interpreter_run := Demo.run;
  classify := Demo.review;
  cleanup_session := ret tt;
  dp_generate := λ dir, "files of " +:+ dir;
  save_run := Demo.save;
|}.

Definition agent : ParallelAgent :=
  ParallelAgent_init "task" (Demo.config 2 1 "logs") Demo.empty_journal.

End Stalled.

(** ** Tasks on one actor *)

Section TaskModel.
Context `{Collaborators}.

(** The tasks [task x], for [x] in [xs], on one actor, which runs them one
    after the other: the futures, and the actor afterwards. *)
Fixpoint run_tasks {A B} (task : A → M ParallelWorker B) (xs : list A)
    (w : ParallelWorker) : list (result B) * ParallelWorker :=
  match xs with
  | [] => ([], w)
  | x :: xs' =>
      let '(r, w1) := task x w in
      let '(rs, w2) := run_tasks task xs' w1 in
      (r :: rs, w2)
  end.

(** The scheduler [s] after remote calls and log records: the actors are
    [ws], the calls [calls] and the records [logs] have been added, and the
    rest is as in [s]. *)
Definition swept (s : ParallelAgent) (ws : list ParallelWorker)
    (calls : list (nat * method)) (logs : list log_record) : ParallelAgent :=
  {| cfg := cfg s; journal := journal s; data_preview := data_preview s;
     num_workers := num_workers s; nodes_per_worker := nodes_per_worker s;
     logger := logger s ++ logs; workers := ws;
     ray_initialized := ray_initialized s;
     ray_calls := ray_calls s ++ calls |}.

(** What the body of the loop over the workers does for worker [i], apart
    from extending [exec_futures]: the log record and the submission of the
    nodes of slice [i] to worker [i]. *)
Definition submit_slice (step_num : nat) (all_nodes : list (Node Scalar ExecutionResult))
    (pool npe i : nat) : M ParallelAgent (list (result (Node Scalar ExecutionResult))) :=
  log INFO (WorkerAssigned step_num i (length (worker_slice all_nodes pool npe i)));;
  map_M (λ n, remote i Call_execute_and_evaluate_node (execute_and_evaluate_node n))
    (worker_slice all_nodes pool npe i).

(** [e] is the node [g] after an evaluation: the sandbox has run the code of
    [g] and returned an artifact, the metric derivation has classified it,
    and [e] is [g] with the artifact and the verdict. *)
Definition evaluated_from (g e : Node Scalar ExecutionResult) : Prop :=
  ∃ c r c1 v c2,
    interpreter_run (code g) true c = (Ok r, c1) ∧
    classify (absorb_exec_result g r) r c1 = (Ok v, c2) ∧
    e = set_verdict (absorb_exec_result g r) v.

End TaskModel.

(** ** Teardown requests *)

(** One teardown request to every worker of the pool, in pool order. *)
Definition teardown_requests (pool : nat) : list (nat * method) :=
  (λ i, (i, Call_cleanup_interpreter)) <$> seq 0 pool.

(** ** The experiment ([aide/__init__.py]) *)

Record Solution (Scalar : Type) : Type := mkSolution {
  solution_code : string;
  valid_metric : Scalar;
}.
Arguments mkSolution {Scalar}.
Arguments solution_code {Scalar}.
Arguments valid_metric {Scalar}.

(** An attribute that is looked up on an object that does not have it; the
    message is kept. *)
Definition AttributeError (msg : string) : exn := Exception msg.

(** What an experiment uses besides the scheduler: its own interpreter, the
    single-process agent of [aide/agent.py], whose step works on the shared
    journal and calls back into the interpreter, and the selection of the
    best node of a journal. *)
Class Harness `{Collaborators} : Type := {
  Interpreter : Type;
  (** [Interpreter(cfg.workspace_dir, **cfg.exec)] *)
  new_interpreter : Config → Interpreter;
  (** [self.interpreter.cleanup_session()] *)
  interpreter_cleanup_session : M Interpreter unit;
  Agent : Type;
  (** [Agent(task_desc, cfg, journal)] *)
  Agent_init : string → Config → Journal Scalar ExecutionResult → Agent;
  (** [agent.step(exec_callback=self.interpreter.run)] *)
  Agent_step : M (Agent * Journal Scalar ExecutionResult * Interpreter) unit;
  (** [journal.get_best_node(only_good)] *)
  get_best_node :
    Journal Scalar ExecutionResult → bool → option (Node Scalar ExecutionResult);
}.

Section ExperimentModel.
Context `{Harness}.

(** [self.agent], with the journal that a single-process agent shares with
    the experiment; a scheduler holds the shared journal itself. *)
Inductive agent_t : Type :=
| ParallelA (a : ParallelAgent)
| SequentialA (a : Agent) (j : Journal Scalar ExecutionResult).

(** A constructed experiment. *)
Record Experiment : Type := mkExperiment {
  exp_cfg : Config;
  exp_task_desc : string;
  exp_agent : agent_t;
  exp_interpreter : Interpreter;
}.

(** [self.journal], the object that the agent holds too. *)
Definition exp_journal (e : Experiment) : Journal Scalar ExecutionResult :=
  match exp_agent e with
  | ParallelA a => journal a
  | SequentialA _ j => j
  end.

Definition set_exp_agent (e : Experiment) (a : agent_t) : Experiment :=
  {| exp_cfg := exp_cfg e; exp_task_desc := exp_task_desc e;
     exp_agent := a; exp_interpreter := exp_interpreter e |}.

Definition set_exp_interpreter (e : Experiment) (i : Interpreter) : Experiment :=
  {| exp_cfg := exp_cfg e; exp_task_desc := exp_task_desc e;
     exp_agent := exp_agent e; exp_interpreter := i |}.

(** Lines 46-61 of [Experiment.__init__], after the configuration has been
    loaded and prepared and the task description read: [parallel_enabled] is
    [cfg.agent.parallel.enabled], and [Journal()] is the empty journal. *)
Definition Experiment_init (c : Config) (parallel_enabled : bool) (task_desc : string)
    : Experiment :=
  let j := {| nodes := []; draft_nodes := [] |} in
  {| exp_cfg := c;
     exp_task_desc := task_desc;
     exp_agent :=
       if parallel_enabled then ParallelA (ParallelAgent_init task_desc c j)
       else SequentialA (Agent_init task_desc c j) j;
     exp_interpreter := new_interpreter c |}.

(** [self.agent.step(exec_callback=self.interpreter.run)]: a scheduler does
    not use the callback. *)
Definition agent_step : M Experiment unit :=
  λ e, match exp_agent e with
       | ParallelA a =>
           let '(r, a') := step a in (r, set_exp_agent e (ParallelA a'))
       | SequentialA a j =>
           let '(r, (a', j', i')) := Agent_step (a, j, exp_interpreter e) in
           (r, set_exp_interpreter (set_exp_agent e (SequentialA a' j')) i')
       end.

(** [self.interpreter.cleanup_session()] *)
Definition cleanup_own_session : M Experiment unit :=
  λ e, let '(r, i') := interpreter_cleanup_session (exp_interpreter e) in
       (r, set_exp_interpreter e i').

Definition Experiment_run (steps : nat) : M Experiment (Solution Scalar) :=
  for_each (seq 0 steps)
    (λ _, agent_step;;
          c ← gets exp_cfg;
          j ← gets exp_journal;
          lift_result (save_run c j));;
  cleanup_own_session;;
  j ← gets exp_journal;
  match get_best_node j false with
  | None => raise (AttributeError "'NoneType' object has no attribute 'code'")
  | Some best_node =>
      match metric best_node with
      | None => raise (AttributeError "'NoneType' object has no attribute 'value'")
      | Some value => mret {| solution_code := code best_node; valid_metric := value |}
      end
  end.

(** [self.agent.cleanup()] on a scheduler. *)
Definition agent_cleanup (pa : ParallelAgent) : M Experiment unit :=
  λ e, let '(r, pa') := cleanup pa in (r, set_exp_agent e (ParallelA pa')).

(** [Experiment.cleanup]; a constructed experiment has its interpreter. *)
Definition Experiment_cleanup : M Experiment unit :=
  cleanup_own_session;;
  a ← gets exp_agent;
  match a with
  | ParallelA pa => agent_cleanup pa
  | SequentialA _ _ => mret tt
  end.

End ExperimentModel.

(** A small harness: the interpreter is its open session, and the best node
    is the first of the journal. *)
Module DemoHarness.

#[local] Existing Instance Demo.collaborators.

#[local] Instance harness : Harness := {|
  Interpreter := bool;
  new_interpreter := λ _, true;
  interpreter_cleanup_session := λ _, (Ok tt, false);
  Agent := unit;
  Agent_init := λ _ _ _, tt;
  Agent_step := ret tt;
  get_best_node := λ j _, head (nodes j);
|}.

Definition experiment (task logs : string) : Experiment :=
  Experiment_init (Demo.config 2 1 logs) true task.

End DemoHarness.

(** Further scenarios on the small instance. *)
Module Scenario.

#[local] Existing Instance Demo.collaborators.
#[local] Existing Instance DemoHarness.harness.

(** A scheduler that is configured without workers. *)
Definition no_pool : ParallelAgent := Demo.agent "print(1)" 0 1 "logs".

(** One worker that drafts one node per step. *)
Definition single : ParallelAgent := Demo.agent "print(1)" 1 1 "logs".

(** The draft of that worker. *)
Definition drafted : Node nat string :=
  {| id := "draft"; code := "print(1)"; parent := None;
     exec_result := None; is_buggy := None; metric := None |}.

(** What the two workers of [Demo.healthy] hand to the first barrier of a
    step, and the scheduler at that point. *)
Definition pending : list (Node nat string) := replicate 4 drafted.
Definition proposed : ParallelAgent := (propose 0 Demo.healthy).2.

(** Experiments on two workers with one draft each: one that runs, one whose
    drafts crash the sandbox, one whose log directory cannot be written. *)
Definition running : Experiment := DemoHarness.experiment "print(1)" "logs".
Definition crashing : Experiment := DemoHarness.experiment "crash" "logs".
Definition unsaved : Experiment := DemoHarness.experiment "print(1)" "".

End Scenario.

(** * Properties *)

(** ** The partition *)

Example partition_10_3 :
  partition (seq 0 10) 3 = Ok [[0; 1; 2]; [3; 4; 5]; [6; 7; 8; 9]].
Proof. reflexivity. Qed.

Example partition_1_2 : partition [7] 2 = Ok [[7]; []].
Proof. reflexivity. Qed.

Example partition_5_3 : partition (seq 0 5) 3 = Ok [[0]; [1]; [2; 3; 4]].
Proof. reflexivity. Qed.

Section Partition.
Context {A : Type}.
Implicit Types (l : list A) (pool npe i : nat).

Lemma nodes_per_executor_pos total pool :
  0 < pool → nodes_per_executor total pool = Ok (max 1 (total / pool)).
Proof.
  intros Hpool. unfold nodes_per_executor, floordiv.
  destruct (decide (pool = 0)); [lia | reflexivity].
Qed.

(** Every worker but the last takes the next [npe] nodes, if there are that
    many left. *)
Lemma worker_slice_inner l pool npe i :
  i < pool - 1 → worker_slice l pool npe i = take npe (drop (i * npe) l).
Proof.
  intros Hi. unfold worker_slice, slice_bounds, py_slice.
  destruct (decide (i < pool - 1)); [| lia].
  f_equal. lia.
Qed.

(** The last worker takes what is left. *)
Lemma worker_slice_last l pool npe :
  worker_slice l pool npe (pool - 1) = drop ((pool - 1) * npe) l.
Proof.
  unfold worker_slice, slice_bounds, py_slice.
  destruct (decide (pool - 1 < pool - 1)); [lia |].
  apply take_ge. rewrite length_drop. lia.
Qed.

Lemma concat_inner_slices l pool npe m :
  m ≤ pool - 1 →
  concat (worker_slice l pool npe <$> seq 0 m) = take (m * npe) l.
Proof.
  induction m as [| m IH]; intros Hm; [by rewrite take_0 |].
  rewrite seq_S, fmap_app, concat_app, IH by lia. simpl.
  rewrite app_nil_r, worker_slice_inner by lia.
  rewrite take_take_drop. f_equal. lia.
Qed.

Lemma concat_slices l pool npe :
  0 < pool → concat (worker_slice l pool npe <$> seq 0 pool) = l.
Proof.
  intros Hpool. replace pool with (S (pool - 1)) at 2 by lia.
  rewrite seq_S, fmap_app, concat_app, concat_inner_slices by lia. simpl.
  rewrite app_nil_r, worker_slice_last. apply take_drop.
Qed.

Lemma partition_ok l pool :
  0 < pool →
  partition l pool
  = Ok (worker_slice l pool (max 1 (length l / pool)) <$> seq 0 pool).
Proof.
  intros Hpool. unfold partition. by rewrite nodes_per_executor_pos.
Qed.

Lemma partition_lookup l pool slices i s :
  0 < pool → partition l pool = Ok slices → slices !! i = Some s →
  i < pool ∧ s = worker_slice l pool (max 1 (length l / pool)) i.
Proof.
  intros Hpool Hp Hs. rewrite partition_ok in Hp by done.
  injection Hp as <-. rewrite list_lookup_fmap in Hs.
  destruct (seq 0 pool !! i) as [k |] eqn:Hk; [| done].
  apply lookup_seq in Hk as [-> ?]. simpl in Hs. injection Hs as <-. done.
Qed.

(** The sizes when there is at least one node per worker. *)
Lemma slice_length_enough l pool i :
  0 < pool → pool ≤ length l → i < pool →
  length (worker_slice l pool (max 1 (length l / pool)) i)
  = if decide (i < pool - 1) then length l / pool
    else length l / pool + length l `mod` pool.
Proof.
  intros Hpool Hle Hi.
  pose proof (Nat.div_mod_eq (length l) pool) as Hdm.
  assert (1 ≤ length l / pool) as Hq by (apply Nat.div_le_lower_bound; lia).
  rewrite Nat.max_r by done.
  set (q := length l / pool) in *. set (r := length l `mod` pool) in *.
  destruct (decide (i < pool - 1)) as [Hin | Hlast].
  - rewrite worker_slice_inner, length_take, length_drop by done. nia.
  - replace i with (pool - 1) by lia.
    rewrite worker_slice_last, length_drop. nia.
Qed.

(** The sizes when there are fewer nodes than workers. *)
Lemma slice_length_few l pool i :
  0 < pool → length l < pool → i < pool →
  length (worker_slice l pool (max 1 (length l / pool)) i)
  = if decide (i < length l) then 1 else 0.
Proof.
  intros Hpool Hlt Hi. rewrite Nat.div_small by done. simpl.
  destruct (decide (i < pool - 1)) as [Hin | Hlast].
  - rewrite worker_slice_inner, length_take, length_drop by done.
    destruct (decide (i < length l)); lia.
  - replace i with (pool - 1) by lia.
    rewrite worker_slice_last, length_drop.
    destruct (decide (pool - 1 < length l)); lia.
Qed.

End Partition.

(** The sizes of the slices of any list: for a pool of at least one worker
    the partition gives one slice per worker and the slices are contiguous;
    with at least as many nodes as workers every slice but the last has the
    floor of N/P nodes and the last has the remainder too; with fewer nodes
    than workers the size per worker is 1, so the first N slices hold one
    node each and the others none. *)
Lemma partition_slice_sizes {A} (l : list A) (pool : nat) :
  0 < pool →
  ∃ slices,
    partition l pool = Ok slices ∧
    length slices = pool ∧
    concat slices = l ∧
    (pool ≤ length l → floor_sized l pool slices) ∧
    (length l < pool →
     ∀ i s, slices !! i = Some s → length s = if decide (i < length l) then 1 else 0) ∧
    (pool = 3 → length l = 10 → length <$> slices = [3; 3; 4]).
Proof.
  intros Hpool. eexists. split; [by apply partition_ok |].
  assert (∀ i s,
    (worker_slice l pool (max 1 (length l / pool)) <$> seq 0 pool) !! i = Some s →
    i < pool ∧ s = worker_slice l pool (max 1 (length l / pool)) i) as Hlook.
  { intros i s. by apply partition_lookup; [| apply partition_ok]. }
  split; [by rewrite length_fmap, length_seq |].
  split; [by apply concat_slices |].
  split; [| split].
  - intros Hle i s Hs. apply Hlook in Hs as [Hi ->].
    by apply slice_length_enough.
  - intros Hlt i s Hs. apply Hlook in Hs as [Hi ->].
    by apply slice_length_few.
  - intros -> Hlen. simpl.
    rewrite !(slice_length_enough l 3) by lia. rewrite Hlen. reflexivity.
Qed.

(** C2: for a pool of at least one worker the partition gives one slice per
    worker, and the slices, concatenated in the order of the workers, are the
    pending sequence: no node is lost and none is duplicated. *)
Theorem partition_concat {A} (l : list A) (pool : nat) :
  0 < pool →
  ∃ slices,
    partition l pool = Ok slices ∧ length slices = pool ∧ concat slices = l.
Proof.
  intros Hpool. eexists. split; [by apply partition_ok |].
  split; [by rewrite length_fmap, length_seq | by apply concat_slices].
Qed.

Lemma partition_concat_witness :
  0 < 3 ∧
  ∃ slices,
    partition (seq 0 10) 3 = Ok slices ∧ length slices = 3 ∧
    concat slices = seq 0 10.
Proof.
  split; [lia | apply (partition_concat (seq 0 10) 3); lia].
Defined.

(** How far apart the sizes of the slices of any list are: for a pool of at
    least one worker, at most N mod P when there are at least as many nodes
    as workers, and at most 1 when there are fewer; they are all equal when N
    is a multiple of P. *)
Lemma partition_size_gap {A} (l : list A) (pool : nat) :
  0 < pool →
  ∃ slices,
    partition l pool = Ok slices ∧
    sizes_within (if decide (pool ≤ length l) then length l `mod` pool else 1) slices ∧
    (length l `mod` pool = 0 → sizes_within 0 slices).
Proof.
  intros Hpool. eexists. split; [by apply partition_ok |].
  assert (sizes_within
            (if decide (pool ≤ length l) then length l `mod` pool else 1)
            (worker_slice l pool (max 1 (length l / pool)) <$> seq 0 pool)) as Hgap.
  { intros i j a b Ha Hb.
    eapply partition_lookup in Ha as [Hi ->]; [| done | by apply partition_ok].
    eapply partition_lookup in Hb as [Hj ->]; [| done | by apply partition_ok].
    destruct (decide (pool ≤ length l)) as [Hle | Hlt].
    - rewrite !slice_length_enough by done. repeat case_decide; lia.
    - rewrite !slice_length_few by lia. repeat case_decide; lia. }
  split; [done |].
  intros Hmod i j a b Ha Hb. specialize (Hgap i j a b Ha Hb).
  destruct (decide (pool ≤ length l)) as [Hle | Hlt]; [lia |].
  rewrite Nat.mod_small in Hmod by lia.
  eapply partition_lookup in Ha as [Hi ->]; [| done | by apply partition_ok].
  eapply partition_lookup in Hb as [Hj ->]; [| done | by apply partition_ok].
  rewrite !slice_length_few by lia. repeat case_decide; lia.
Qed.

(** ** Reasoning about the monad *)

Section MonadFacts.
Context {S : Type}.
Implicit Types (I : S → Prop).

Lemma bind_ok {A B} (m : M S A) (k : A → M S B) s b s' :
  (m ≫= k) s = (Ok b, s') → ∃ a s1, m s = (Ok a, s1) ∧ k a s1 = (Ok b, s').
Proof.
  unfold mbind, M_bind, bind. destruct (m s) as [[a | e] s1]; [eauto | done].
Qed.

Lemma bind_run {A B} (m : M S A) (k : A → M S B) s a s1 :
  m s = (Ok a, s1) → (m ≫= k) s = k a s1.
Proof. intros Hm. unfold mbind, M_bind, bind. by rewrite Hm. Qed.

Lemma bind_raise {A B} (m : M S A) (k : A → M S B) s e s1 :
  m s = (Raise e, s1) → (m ≫= k) s = (Raise e, s1).
Proof. intros Hm. unfold mbind, M_bind, bind. by rewrite Hm. Qed.

Lemma maintains_ret {A} I (a : A) : maintains I (mret a : M S A).
Proof. intros s Hs. exact Hs. Qed.

Lemma maintains_bind {A B} I (m : M S A) (k : A → M S B) :
  maintains I m → (∀ a, maintains I (k a)) → maintains I (m ≫= k).
Proof.
  intros Hm Hk s Hs. specialize (Hm s Hs).
  unfold mbind, M_bind, bind. destruct (m s) as [[a | e] s1]; simpl in *.
  - by apply Hk.
  - done.
Qed.

Lemma maintains_gets {A} I (f : S → A) : maintains I (gets f).
Proof. intros s Hs. exact Hs. Qed.

Lemma maintains_lift_result {A} I (r : result A) : maintains I (lift_result r : M S A).
Proof. intros s Hs. exact Hs. Qed.

Lemma maintains_raise {A} I e : maintains I (raise e : M S A).
Proof. intros s Hs. exact Hs. Qed.

Lemma maintains_modify I (f : S → S) : (∀ s, I s → I (f s)) → maintains I (modify f).
Proof. intros Hf s Hs. by apply Hf. Qed.

Lemma maintains_try_except {A} I (m : M S A) (h : exn → M S A) :
  maintains I m → (∀ e, maintains I (h e)) → maintains I (try_except m h).
Proof.
  intros Hm Hh s Hs. specialize (Hm s Hs).
  unfold try_except. destruct (m s) as [[a | e] s1]; simpl in *.
  - done.
  - by apply Hh.
Qed.

Lemma maintains_for_each {A} I (body : A → M S unit) l :
  (∀ x, maintains I (body x)) → maintains I (for_each l body).
Proof.
  intros Hbody. induction l as [| x l IH]; simpl.
  - apply (maintains_ret I tt).
  - apply maintains_bind; [apply Hbody | intros _; apply IH].
Qed.

Lemma maintains_map_M {A B} I (f : A → M S B) l :
  (∀ x, maintains I (f x)) → maintains I (map_M f l).
Proof.
  intros Hf. induction l as [| x l IH]; simpl.
  - apply (maintains_ret I []).
  - apply maintains_bind; [apply Hf | intros y].
    apply maintains_bind; [apply IH | intros ys]. apply (maintains_ret I (y :: ys)).
Qed.

Lemma maintains_fold_M {A B} I (f : B → A → M S B) l acc :
  (∀ acc x, maintains I (f acc x)) → maintains I (fold_M f acc l).
Proof.
  intros Hf. revert acc. induction l as [| x l IH]; intros acc; simpl.
  - apply (maintains_ret I acc).
  - apply maintains_bind; [apply Hf | intros acc'; apply IH].
Qed.

Lemma returns_ret {A} (a : A) (P : A → Prop) : P a → returns (mret a : M S A) P.
Proof. intros Ha s a' s' [= <- <-]. exact Ha. Qed.

Lemma returns_bind {A B} (m : M S A) (k : A → M S B) (P : A → Prop) (Q : B → Prop) :
  returns m P → (∀ a, P a → returns (k a) Q) → returns (m ≫= k) Q.
Proof.
  intros Hm Hk s b s' Hrun.
  apply bind_ok in Hrun as (a & s1 & Hma & Hkb).
  eapply Hk; [eapply Hm |]; eassumption.
Qed.

Lemma returns_weaken {A} (m : M S A) (P Q : A → Prop) :
  returns m P → (∀ a, P a → Q a) → returns m Q.
Proof. intros Hm HPQ s a s' Hrun. apply HPQ. by eapply Hm. Qed.

Lemma returns_any {A} (m : M S A) : returns m (λ _, True).
Proof. done. Qed.

(** A comprehension returns one value per element, each as its element
    determines. *)
Lemma returns_map_M {A B} (f : A → M S B) (P : A → B → Prop) l :
  (∀ x, returns (f x) (P x)) → returns (map_M f l) (Forall2 P l).
Proof.
  intros Hf. induction l as [| x l IH]; simpl.
  - apply returns_ret. constructor.
  - eapply returns_bind; [apply Hf | intros y Hy].
    eapply returns_bind; [apply IH | intros ys Hys].
    apply returns_ret. by constructor.
Qed.

(** A loop whose body adds [g x] to the measure [μ] of the accumulator adds
    the sum of [g] over the list. *)
Lemma returns_fold_M {A B} (f : B → A → M S B) (μ : B → nat) (g : A → nat) l acc :
  (∀ acc x, returns (f acc x) (λ acc', μ acc' = μ acc + g x)) →
  returns (fold_M f acc l) (λ r, μ r = μ acc + sum_list (g <$> l)).
Proof.
  intros Hf. revert acc. induction l as [| x l IH]; intros acc; simpl.
  - apply returns_ret. lia.
  - eapply returns_bind; [apply Hf | intros acc' Hacc'].
    eapply returns_weaken; [apply IH | intros r Hr].
    cbv beta in *. unfold fmap in *. lia.
Qed.

End MonadFacts.

(** What [ray.get] gives when no future holds an exception, and when one
    does. *)
Lemma ray_get_ok {A} (futures : list (result A)) (values : list A) :
  ray_get futures = Ok values → futures = Ok <$> values.
Proof.
  revert values. induction futures as [| [a | e] fs IH]; intros values Hget; simpl in *.
  - by injection Hget as <-.
  - destruct (ray_get fs) as [vs | e]; [| done].
    injection Hget as <-. simpl. f_equal. by apply IH.
  - done.
Qed.

Lemma ray_get_raise {A} (futures : list (result A)) (e : exn) :
  Raise e ∈ futures → ∃ e', Raise e' ∈ futures ∧ ray_get futures = Raise e'.
Proof.
  induction futures as [| [a | e1] fs IH]; intros Hin.
  - by apply elem_of_nil in Hin.
  - apply elem_of_cons in Hin as [? | Hin]; [done |].
    destruct (IH Hin) as (e' & Hin' & Hget). exists e'. simpl. rewrite Hget.
    split; [apply elem_of_cons; by right | done].
  - exists e1. split; [apply elem_of_cons; by left | done].
Qed.

(** ** The worker *)

Section Worker.
Context `{Collaborators}.

Lemma lift_core_run {A} (m : M Core A) (w : ParallelWorker) :
  lift_core m w = ((m (core w)).1, set_core w (m (core w)).2).
Proof. unfold lift_core. by destruct (m (core w)). Qed.

(** C5: when the sandbox or the metric derivation raises while a worker
    evaluates a node, [execute_and_evaluate_node] logs an error that names
    the node and raises the same exception; it returns no node, so the
    failure is not turned into a buggy result. *)
Theorem evaluation_failure_reraised (n : Node Scalar ExecutionResult)
    (w : ParallelWorker) (e : exn) (c : Core) :
  evaluation_fails n w e c →
  execute_and_evaluate_node n w
  = (Raise e,
     {| core := c;
        w_data_preview := w_data_preview w;
        actor_id := actor_id w;
        w_logger :=
          (w_logger w ++ [(INFO, Executing (actor_id w) (id n))])
          ++ [(ERROR, FailedExecuting (actor_id w) (id n) (str e))] |}).
Proof.
  intros [Hrun | (r & c1 & Hrun & Hcls)].
  - unfold execute_and_evaluate_node, try_except, mbind, M_bind, bind.
    cbn. rewrite lift_core_run. cbn. rewrite Hrun. reflexivity.
  - unfold execute_and_evaluate_node, parse_exec_result, try_except,
      mbind, M_bind, bind.
    cbn. rewrite lift_core_run. cbn. rewrite Hrun. cbn.
    rewrite lift_core_run. cbn. rewrite Hcls. reflexivity.
Qed.

End Worker.

Section WorkerExample.
#[local] Existing Instance Demo.collaborators.

Lemma evaluation_failure_reraised_witness :
  evaluation_fails (Demo.a_node "crash") (Demo.worker "task")
    (Exception "sandbox crashed") "task" ∧
  execute_and_evaluate_node (Demo.a_node "crash") (Demo.worker "task")
  = (Raise (Exception "sandbox crashed"),
     {| core := "task";
        w_data_preview := None;
        actor_id := 0;
        w_logger :=
          [(INFO, Executing 0 "n1");
           (ERROR, FailedExecuting 0 "n1" "sandbox crashed")] |}).
Proof.
  assert (evaluation_fails (Demo.a_node "crash") (Demo.worker "task")
            (Exception "sandbox crashed") "task") as Hfail
    by (left; reflexivity).
  split; [exact Hfail |].
  exact (evaluation_failure_reraised _ _ _ _ Hfail).
Defined.

End WorkerExample.

(** ** Invariants of the scheduler

    An invariant that logging and the tasks of the methods in [allowed] keep
    is kept by the phases of a step that only log and submit such tasks. *)

Section Invariants.
Context `{Collaborators}.
Variable I : ParallelAgent → Prop.
Variable allowed : method → Prop.
Hypothesis I_log : ∀ s r, I s → I (add_log s r).
Hypothesis I_task : ∀ s i m w, allowed m → I s → I (ran_task s i m w).
Hypothesis I_journal : ∀ s j, I s → I (set_journal s j).
Hypothesis I_shutdown : ∀ s, I s → I (set_ray_initialized s false).
Hypothesis I_preview : ∀ s v, I s → I (set_data_preview s v).
Hypothesis I_update : maintains I update_data_preview.
Hypothesis allowed_fetch : allowed Call_get_data_preview.
Hypothesis allowed_generate : allowed Call_search_and_generate.
Hypothesis allowed_evaluate : allowed Call_execute_and_evaluate_node.
Hypothesis allowed_cleanup : allowed Call_cleanup_interpreter.

Lemma maintains_log lvl msg : maintains I (log lvl msg).
Proof. apply maintains_modify. intros s Hs. by apply I_log. Qed.

Lemma maintains_remote {A} i m (task : M ParallelWorker A) :
  allowed m → maintains I (remote i m task).
Proof.
  intros Hm s Hs. unfold remote.
  destruct (ray_initialized s); [| done].
  destruct (workers s !! i) as [w |]; [| done].
  destruct (task w) as [r w']. simpl. by apply I_task.
Qed.

Ltac maintain :=
  repeat first
    [ apply maintains_bind; [| intros ?]
    | apply maintains_log
    | apply maintains_gets
    | apply maintains_lift_result
    | apply maintains_raise
    | apply (maintains_ret I)
    | apply maintains_map_M; intros ?
    | apply maintains_fold_M; intros ? ?
    | apply maintains_for_each; intros ?
    | apply maintains_remote; assumption ].

Lemma maintains_update_data_preview : maintains I update_data_preview.
Proof using I_task I_preview allowed_fetch.
  unfold update_data_preview. maintain.
  destruct a; maintain. case_decide; maintain.
  apply maintains_modify. intros s Hs. by apply I_preview.
Qed.

Lemma maintains_propose n : maintains I (propose n).
Proof using I_log I_task allowed_generate. unfold propose. maintain. Qed.

Lemma maintains_dispatch n all_nodes : maintains I (dispatch n all_nodes).
Proof using I_log I_task allowed_evaluate. unfold dispatch, assign. maintain. Qed.

Lemma maintains_collect n futures : maintains I (collect n futures).
Proof using I_log. unfold collect. maintain. Qed.

Lemma maintains_start_step : maintains I start_step.
Proof using I_log I_update.
  unfold start_step.
  apply maintains_bind; [apply maintains_gets | intros n].
  apply maintains_bind; [apply maintains_log | intros _].
  apply maintains_bind; [apply maintains_gets | intros j].
  apply maintains_bind; [| intros _; apply (maintains_ret I)].
  destruct (nodes j); [| apply (maintains_ret I)].
  apply maintains_bind; [exact I_update | intros _; apply maintains_log].
Qed.

Lemma maintains_submitted : maintains I submitted.
Proof using I_log I_task I_update allowed_generate allowed_evaluate.
  unfold submitted.
  apply maintains_bind; [apply maintains_start_step | intros n].
  apply maintains_bind; [apply maintains_propose | intros all_nodes].
  apply maintains_bind; [apply maintains_dispatch | intros futures].
  apply (maintains_ret I).
Qed.

Lemma maintains_aggregate n evaluated : maintains I (aggregate n evaluated).
Proof using I_log I_journal.
  unfold aggregate, aggregate_node. maintain.
  - destruct (parent _); maintain.
    apply maintains_modify. intros s Hs. by apply I_journal.
  - apply maintains_modify. intros s Hs. by apply I_journal.
Qed.

Lemma maintains_save_results n : maintains I (save_results n).
Proof using I_log. unfold save_results. apply maintains_try_except; intros; maintain. Qed.

Lemma maintains_step : maintains I step.
Proof using I_log I_task I_journal I_update allowed_generate allowed_evaluate.
  unfold step, aggregated.
  apply maintains_bind; [| intros n; apply maintains_save_results].
  apply maintains_bind; [apply maintains_submitted | intros [n futures]].
  apply maintains_bind; [apply maintains_collect | intros evaluated].
  apply maintains_bind; [apply maintains_aggregate | intros _].
  apply (maintains_ret I).
Qed.

Lemma maintains_cleanup : maintains I cleanup.
Proof using I_task I_shutdown allowed_cleanup.
  unfold cleanup, ray_shutdown. maintain.
  apply maintains_modify. intros s Hs. by apply I_shutdown.
Qed.

End Invariants.

(** ** The scheduler *)

Section Scheduler.
Context `{Collaborators}.
Implicit Types (s : ParallelAgent) (n : nat).

(** *** What the phases leave alone *)

Lemma update_data_preview_keeps {X} (f : ParallelAgent → X) :
  (∀ s i m w, f (ran_task s i m w) = f s) →
  (∀ s v, f (set_data_preview s v) = f s) →
  ∀ x, maintains (λ s, f s = x) update_data_preview.
Proof.
  intros Htask Hpreview x.
  apply maintains_update_data_preview with (allowed := λ _, True); [| | done].
  - intros s i m w _ <-. apply Htask.
  - intros s v <-. apply Hpreview.
Qed.

Lemma submitted_keeps {X} (f : ParallelAgent → X) s :
  (∀ s r, f (add_log s r) = f s) →
  (∀ s i m w, f (ran_task s i m w) = f s) →
  (∀ s v, f (set_data_preview s v) = f s) →
  f (submitted s).2 = f s.
Proof.
  intros Hlog Htask Hpreview.
  apply (maintains_submitted (λ s', f s' = f s) (λ _, True)); try done.
  - intros s' r <-. apply Hlog.
  - intros s' i m w _ <-. apply Htask.
  - by apply update_data_preview_keeps.
Qed.

Lemma collect_run n futures s :
  collect n futures s
  = let s1 := add_log s (INFO, WaitingForExecutions n (length futures)) in
    match ray_get futures with
    | Ok evaluated => (Ok evaluated, add_log s1 (INFO, AllExecutionsCompleted n))
    | Raise e => (Raise e, s1)
    end.
Proof.
  unfold collect, mbind, M_bind, bind. cbn. by destruct (ray_get futures).
Qed.

(** *** Aggregation *)

Lemma fold_aggregate_node evaluated : ∀ st s,
  ∃ st' s',
    fold_M aggregate_node st evaluated s = (Ok st', s') ∧
    nodes (journal s') = nodes (journal s) ++ evaluated ∧
    draft_nodes (journal s')
    = draft_nodes (journal s) ++ filter (λ x, parent x = None) evaluated.
Proof.
  induction evaluated as [| x evaluated IH]; intros st s.
  - exists st, s. by rewrite !app_nil_r.
  - destruct (IH (track st x) (aggregate_node st x s).2) as (st' & s' & Hrun & Hn & Hd).
    exists st', s'. split; [| split].
    + simpl. unfold mbind, M_bind, bind, aggregate_node in *.
      destruct (parent x); exact Hrun.
    + rewrite Hn. unfold aggregate_node, mbind, M_bind, bind.
      destruct (parent x); cbn; by rewrite <- app_assoc.
    + rewrite Hd, filter_cons. unfold aggregate_node, mbind, M_bind, bind.
      destruct (parent x); cbn.
      * rewrite decide_False by done. done.
      * rewrite decide_True by done. by rewrite <- app_assoc.
Qed.

(** C7: the aggregation returns, and it leaves the main collection extended
    by all evaluated nodes in the order of the results, and the draft list
    extended, in the same order, by those among them that have no parent. *)
Theorem aggregation_appends n (evaluated : list (Node Scalar ExecutionResult)) s :
  (aggregate n evaluated s).1 = Ok tt ∧
  nodes (journal (aggregate n evaluated s).2) = nodes (journal s) ++ evaluated ∧
  draft_nodes (journal (aggregate n evaluated s).2)
  = draft_nodes (journal s) ++ filter (λ x, parent x = None) evaluated.
Proof.
  destruct (fold_aggregate_node evaluated
              {| successful_nodes := 0; buggy_nodes := 0; best_metric := None |} s)
    as (st' & s' & Hrun & Hn & Hd).
  unfold aggregate, mbind, M_bind, bind. rewrite Hrun. cbn. done.
Qed.

Lemma aggregate_journal n (evaluated : list (Node Scalar ExecutionResult)) s :
  (aggregate n evaluated s).1 = Ok tt ∧
  nodes (journal (aggregate n evaluated s).2) = nodes (journal s) ++ evaluated ∧
  draft_nodes (journal (aggregate n evaluated s).2)
  = draft_nodes (journal s) ++ filter (λ x, parent x = None) evaluated.
Proof.
  destruct (fold_aggregate_node evaluated
              {| successful_nodes := 0; buggy_nodes := 0; best_metric := None |} s)
    as (st' & s' & Hrun & Hn & Hd).
  unfold aggregate, mbind, M_bind, bind. rewrite Hrun. cbn. done.
Qed.

(** *** Failures *)

(** C4: when one of the evaluations that a step has submitted raises, the
    step raises the exception of such an evaluation at the second barrier,
    before the aggregation: the journal is as it was when the step began. *)
Theorem evaluation_failure_aborts_step s n futures s1 e :
  submitted s = (Ok (n, futures), s1) →
  Raise e ∈ futures →
  ∃ e',
    Raise e' ∈ futures ∧
    step s = (Raise e', add_log s1 (INFO, WaitingForExecutions n (length futures))) ∧
    journal (step s).2 = journal s.
Proof.
  intros Hsub Hin. destruct (ray_get_raise futures e Hin) as (e' & Hin' & Hget).
  assert (step s = (Raise e', add_log s1 (INFO, WaitingForExecutions n (length futures))))
    as Hstep.
  { unfold step, aggregated. erewrite bind_raise; [done |].
    erewrite bind_run by exact Hsub. cbn.
    erewrite bind_raise; [done |]. rewrite collect_run, Hget. done. }
  exists e'. split; [done |]. split; [done |].
  rewrite Hstep. cbn.
  rewrite <- (submitted_keeps journal s) by done. by rewrite Hsub.
Qed.

(** C6: when the step has aggregated its results and saving the run raises,
    the step logs the error and returns; the state is the one that the
    aggregation left, with the error record added to the log. *)
Theorem persistence_failure_is_logged s n s1 e :
  aggregated s = (Ok n, s1) →
  save_run (cfg s1) (journal s1) = Raise e →
  step s = (Ok tt, add_log s1 (ERROR, FailedToSave n (str e))) ∧
  journal (step s).2 = journal s1.
Proof.
  intros Hagg Hsave.
  assert (step s = (Ok tt, add_log s1 (ERROR, FailedToSave n (str e)))) as Hstep.
  { unfold step. erewrite bind_run by exact Hagg.
    unfold save_results, try_except, mbind, M_bind, bind. cbn. by rewrite Hsave. }
  split; [done |]. by rewrite Hstep.
Qed.

(** *** The size of a step *)

Lemma returns_remote {A} i m (task : M ParallelWorker A) (P : A → Prop) :
  returns task P → returns (remote i m task) (λ future, ∀ a, future = Ok a → P a).
Proof.
  intros Htask s future s' Hrun. unfold remote in Hrun.
  destruct (ray_initialized s); [| done].
  destruct (workers s !! i) as [w |]; [| done].
  destruct (task w) as [r w'] eqn:Hw. injection Hrun as <- <-.
  intros a ->. by eapply Htask.
Qed.

Lemma sum_list_ones {X} (l : list X) : sum_list ((λ _, 1) <$> l) = length l.
Proof. induction l as [| x l IH]; [done |]. rewrite fmap_cons. simpl. by rewrite IH. Qed.

Lemma sum_list_lengths {X Y} (f : X → list Y) (l : list X) :
  sum_list ((λ x, length (f x)) <$> l) = length (concat (f <$> l)).
Proof.
  induction l as [| x l IH]; [done |].
  rewrite !fmap_cons. simpl. by rewrite length_app, IH.
Qed.

(** A worker that is asked for [k] nodes returns [k] nodes. *)
Lemma generate_nodes_length parent_node k :
  returns (generate_nodes parent_node k) (λ l, length l = k).
Proof.
  unfold generate_nodes.
  eapply returns_bind; [apply returns_any | intros _ _].
  eapply returns_bind.
  { apply (returns_fold_M _ length (λ _, 1)). intros acc _.
    eapply returns_bind; [apply returns_any | intros x _].
    apply returns_ret. rewrite length_app. simpl. lia. }
  intros l Hl. rewrite sum_list_ones, length_seq in Hl. simpl in Hl.
  eapply returns_bind; [apply returns_any | intros _ _].
  by apply returns_ret.
Qed.

Lemma search_and_generate_length k :
  returns (search_and_generate k) (λ l, length l = k).
Proof.
  unfold search_and_generate.
  eapply returns_bind; [apply returns_any | intros parent_node _].
  eapply returns_bind; [apply returns_any | intros _ _].
  apply generate_nodes_length.
Qed.

Lemma length_concat_uniform {X} (ls : list (list X)) k :
  Forall (λ l, length l = k) ls → length (concat ls) = length ls * k.
Proof.
  induction 1 as [| l ls Hl _ IH]; [done |].
  simpl. rewrite length_app, IH, Hl. lia.
Qed.

(** The first barrier passes [P * K] pending nodes on. *)
Lemma propose_length n s all_nodes s' :
  propose n s = (Ok all_nodes, s') →
  length all_nodes = length (workers s) * nodes_per_worker s.
Proof.
  unfold propose. intros Hrun.
  apply bind_ok in Hrun as (k & s1 & [= <- <-] & Hrun).
  apply bind_ok in Hrun as (pool & s1 & [= <- <-] & Hrun).
  apply bind_ok in Hrun as (node_futures & s1 & Hmap & Hrun).
  apply bind_ok in Hrun as ([] & s2 & _ & Hrun).
  apply bind_ok in Hrun as (generated & s3 & Hget & Hrun).
  apply bind_ok in Hrun as ([] & s4 & _ & [= <- _]).
  unfold lift_result in Hget. injection Hget as Hget _.
  apply ray_get_ok in Hget as ->.
  eapply (returns_map_M _
            (λ _ future, ∀ l, future = Ok l → length l = nodes_per_worker s)) in Hmap.
  2:{ intros i. apply returns_remote, search_and_generate_length. }
  pose proof (Forall2_length _ _ _ Hmap) as Hlen.
  rewrite length_seq, length_fmap in Hlen.
  rewrite (length_concat_uniform generated (nodes_per_worker s)); [by rewrite <- Hlen |].
  apply Forall_forall. intros l Hl.
  apply list_elem_of_lookup in Hl as [i Hi].
  assert (is_Some (seq 0 (length (workers s)) !! i)) as [k Hk].
  { apply lookup_lt_is_Some. rewrite length_seq, Hlen. by eapply lookup_lt_Some. }
  eapply (Forall2_lookup_lr _ _ _ i k (Ok l)) in Hmap; [by apply Hmap | done |].
  by rewrite list_lookup_fmap, Hi.
Qed.

(** Every pending node is submitted for evaluation, once. *)
Lemma dispatch_length n all_nodes s futures s' :
  dispatch n all_nodes s = (Ok futures, s') → length futures = length all_nodes.
Proof.
  unfold dispatch. intros Hrun.
  apply bind_ok in Hrun as (pool & s1 & [= <- <-] & Hrun).
  apply bind_ok in Hrun as (npe & s1 & Hnpe & Hrun).
  apply bind_ok in Hrun as ([] & s2 & _ & Hrun).
  unfold lift_result in Hnpe. injection Hnpe as Hnpe _.
  assert (0 < length (workers s)) as Hpool.
  { unfold nodes_per_executor, floordiv in Hnpe. case_decide; [done | lia]. }
  eapply (returns_fold_M _ length
            (λ i, length (worker_slice all_nodes (length (workers s)) npe i))) in Hrun.
  - rewrite sum_list_lengths, concat_slices in Hrun by done. exact Hrun.
  - intros acc i. unfold assign.
    eapply returns_bind; [apply returns_any | intros _ _].
    eapply returns_bind; [apply (returns_map_M _ (λ _ _, True)); intros x; apply returns_any |].
    intros fs Hfs. apply returns_ret.
    rewrite length_app. by rewrite (Forall2_length _ _ _ Hfs).
Qed.

Lemma start_step_keeps {X} (f : ParallelAgent → X) s :
  (∀ s r, f (add_log s r) = f s) →
  (∀ s i m w, f (ran_task s i m w) = f s) →
  (∀ s v, f (set_data_preview s v) = f s) →
  f (start_step s).2 = f s.
Proof.
  intros Hlog Htask Hpreview.
  apply (maintains_start_step (λ s', f s' = f s)); [| | done].
  - intros s' r <-. apply Hlog.
  - by apply update_data_preview_keeps.
Qed.

Lemma reachable_shaped task c j s : reachable task c j s → shaped c s.
Proof.
  assert (∀ s v, shaped c s → shaped c (set_data_preview s v)) as Hpreview by done.
  assert (∀ s i m w, True → shaped c s → shaped c (ran_task s i m w)) as Htask.
  { intros s' i m w _ (Hw & Hn & Hk). split; [| done]. simpl. by rewrite length_insert. }
  induction 1 as [| s Hs IH | s Hs IH].
  - split; [| done]. simpl. by rewrite length_fmap, length_seq.
  - apply (maintains_step (shaped c) (λ _, True)); try done.
    apply maintains_update_data_preview with (allowed := λ _, True); done.
  - apply (maintains_cleanup (shaped c) (λ _, True)); done.
Qed.

(** *** The data preview *)

Lemma preview_cached_task v s i m w :
  m ≠ Call_get_data_preview → preview_cached v s → preview_cached v (ran_task s i m w).
Proof.
  intros Hm [Hv Hcalls]. split; [done |].
  intros [k Hk]. simpl in Hk.
  apply elem_of_app in Hk as [Hk | Hk]; [by apply Hcalls; exists k |].
  apply list_elem_of_singleton in Hk. congruence.
Qed.

(** Once the attribute is set, [update_data_preview] does nothing. *)
Lemma update_data_preview_set s v :
  data_preview s = Some v → update_data_preview s = (Ok tt, s).
Proof.
  intros Hv. unfold update_data_preview, mbind, M_bind, bind. cbn. by rewrite Hv.
Qed.

(** Without the attribute, the preview of the first worker is fetched and
    stored. *)
Lemma update_data_preview_unset s w :
  data_preview s = None → ray_initialized s = true → workers s !! 0 = Some w →
  update_data_preview s
  = (Ok tt, set_data_preview (ran_task s 0 Call_get_data_preview w) (w_data_preview w)).
Proof.
  intros Hattr Hup Hw.
  assert (length (workers s) ≠ 0) as Hpool.
  { apply lookup_lt_Some in Hw. lia. }
  unfold update_data_preview, remote, mbind, M_bind, bind. cbn.
  rewrite Hattr. destruct (decide (length (workers s) = 0)); [done |].
  rewrite Hup, Hw. cbn. by destruct w.
Qed.

(** C8, amended: the constructor sets the data preview of the scheduler, to
    the generated preview if the configuration asks for one and to none
    otherwise; in every state that the scheduler reaches the preview is that
    one, and no worker has been asked for its preview, on the first step or
    on a later one. *)
Theorem preview_set_at_construction task c j s :
  reachable task c j s →
  data_preview s = Some (initial_preview c) ∧ ¬ fetched_preview s.
Proof.
  assert (maintains (preview_cached (initial_preview c)) update_data_preview) as Hupdate.
  { intros s' Hs'. by rewrite (update_data_preview_set s' _ (proj1 Hs')). }
  induction 1 as [| s Hs IH | s Hs IH].
  - split; [done |]. intros [i Hi]. by apply elem_of_nil in Hi.
  - apply (maintains_step (preview_cached (initial_preview c))
             (λ m, m ≠ Call_get_data_preview)); try done.
    intros s' i m w. apply preview_cached_task.
  - apply (maintains_cleanup (preview_cached (initial_preview c))
             (λ m, m ≠ Call_get_data_preview)); try done.
    intros s' i m w. apply preview_cached_task.
Qed.

(** *** Teardown *)

(** C9, amended: after a [cleanup] that has returned, a second [cleanup]
    leaves the state as it is; it returns if the pool is empty, and with at
    least one worker it raises, on the first teardown request, because the
    runtime has been shut down. *)
Theorem second_cleanup s s1 :
  cleanup s = (Ok tt, s1) →
  cleanup s1
  = (match workers s1 with [] => Ok tt | _ :: _ => Raise RaySystemError end, s1).
Proof.
  intros Hrun. unfold cleanup in Hrun.
  apply bind_ok in Hrun as (pool & s0 & [= <- <-] & Hrun).
  apply bind_ok in Hrun as ([] & sx & _ & [= <-]).
  unfold cleanup, mbind, M_bind, bind. cbn.
  destruct (workers sx) as [| w ws]; reflexivity.
Qed.

End Scheduler.

(** ** The properties on the small instance *)

Section Examples.
#[local] Existing Instance Demo.collaborators.

Example healthy_step :
  (step Demo.healthy).1 = Ok tt ∧
  length (nodes (journal (step Demo.healthy).2)) = 4 ∧
  length (draft_nodes (journal (step Demo.healthy).2)) = 4 ∧
  logger (step Demo.healthy).2
  = [(INFO, StartingStep 0); (INFO, UpdatedDataPreview);
     (INFO, WaitingForGeneration 0); (INFO, GeneratedTotal 0 4);
     (INFO, Distributing 0 4 2); (INFO, WorkerAssigned 0 0 2);
     (INFO, WorkerAssigned 0 1 2); (INFO, WaitingForExecutions 0 4);
     (INFO, AllExecutionsCompleted 0); (INFO, StepCompleted 0 4 0 (Some 1));
     (INFO, SavedRun 0 "logs")].
Proof. repeat split; vm_compute; reflexivity. Qed.

Example crashing_step :
  (step Demo.crashing).1 = Raise (Exception "sandbox crashed") ∧
  nodes (journal (step Demo.crashing).2) = [].
Proof. split; vm_compute; reflexivity. Qed.

Example unsaved_step :
  (step Demo.unsaved).1 = Ok tt ∧
  length (nodes (journal (step Demo.unsaved).2)) = 1 ∧
  last (logger (step Demo.unsaved).2) = Some (ERROR, FailedToSave 0 "cannot write").
Proof. repeat split; vm_compute; reflexivity. Qed.

Lemma evaluation_failure_aborts_step_witness :
  submitted Demo.crashing
  = (Ok (0, [Raise (Exception "sandbox crashed"); Raise (Exception "sandbox crashed")]),
     (submitted Demo.crashing).2) ∧
  Raise (Exception "sandbox crashed")
  ∈ [Raise (A := Node nat string) (Exception "sandbox crashed");
     Raise (Exception "sandbox crashed")] ∧
  ∃ e',
    Raise e' ∈ [Raise (A := Node nat string) (Exception "sandbox crashed");
                Raise (Exception "sandbox crashed")] ∧
    step Demo.crashing
    = (Raise e', add_log (submitted Demo.crashing).2 (INFO, WaitingForExecutions 0 2)) ∧
    journal (step Demo.crashing).2 = journal Demo.crashing.
Proof.
  assert (submitted Demo.crashing
          = (Ok (0, [Raise (Exception "sandbox crashed");
                     Raise (Exception "sandbox crashed")]),
             (submitted Demo.crashing).2)) as Hsub by (vm_compute; reflexivity).
  assert (Raise (Exception "sandbox crashed")
          ∈ [Raise (A := Node nat string) (Exception "sandbox crashed");
             Raise (Exception "sandbox crashed")]) as Hin by (apply elem_of_cons; by left).
  split; [exact Hsub |]. split; [exact Hin |].
  exact (evaluation_failure_aborts_step _ _ _ _ _ Hsub Hin).
Defined.

Lemma persistence_failure_is_logged_witness :
  aggregated Demo.unsaved = (Ok 0, (aggregated Demo.unsaved).2) ∧
  save_run (cfg (aggregated Demo.unsaved).2) (journal (aggregated Demo.unsaved).2)
  = Raise (Exception "cannot write") ∧
  step Demo.unsaved
  = (Ok tt, add_log (aggregated Demo.unsaved).2 (ERROR, FailedToSave 0 "cannot write")) ∧
  journal (step Demo.unsaved).2 = journal (aggregated Demo.unsaved).2.
Proof.
  assert (aggregated Demo.unsaved = (Ok 0, (aggregated Demo.unsaved).2)) as Hagg
    by (vm_compute; reflexivity).
  assert (save_run (cfg (aggregated Demo.unsaved).2) (journal (aggregated Demo.unsaved).2)
          = Raise (Exception "cannot write")) as Hsave by (vm_compute; reflexivity).
  split; [exact Hagg |]. split; [exact Hsave |].
  exact (persistence_failure_is_logged _ _ _ _ Hagg Hsave).
Defined.

(** C8, as stated: the first step of a scheduler with an empty journal
    returns without having asked a worker for its data preview. *)
Lemma first_step_fetches_nothing :
  nodes (journal Demo.healthy) = [] ∧
  (step Demo.healthy).1 = Ok tt ∧
  ¬ fetched_preview (step Demo.healthy).2.
Proof.
  split; [reflexivity |]. split; [vm_compute; reflexivity |].
  assert (ray_calls (step Demo.healthy).2
          = [(0, Call_search_and_generate); (1, Call_search_and_generate);
             (0, Call_execute_and_evaluate_node); (0, Call_execute_and_evaluate_node);
             (1, Call_execute_and_evaluate_node); (1, Call_execute_and_evaluate_node)])
    as Hcalls by (vm_compute; reflexivity).
  intros [i Hi]. rewrite Hcalls in Hi.
  repeat (apply elem_of_cons in Hi as [Hi | Hi]; [discriminate |]).
  by apply elem_of_nil in Hi.
Qed.

Lemma preview_set_at_construction_witness :
  reachable "print(1)" (Demo.config 2 2 "logs") Demo.empty_journal (step Demo.healthy).2 ∧
  data_preview (step Demo.healthy).2
  = Some (initial_preview (Demo.config 2 2 "logs")) ∧
  ¬ fetched_preview (step Demo.healthy).2.
Proof.
  assert (reachable "print(1)" (Demo.config 2 2 "logs") Demo.empty_journal
            (step Demo.healthy).2) as Hreach
    by apply reachable_step, reachable_init.
  split; [exact Hreach |].
  exact (preview_set_at_construction _ _ _ _ Hreach).
Defined.

(** C9, as stated: with one worker in the pool, the first [cleanup] returns
    and the second raises. *)
Lemma second_cleanup_raises :
  (cleanup Demo.unsaved).1 = Ok tt ∧
  (cleanup (cleanup Demo.unsaved).2).1 = Raise RaySystemError.
Proof. split; vm_compute; reflexivity. Qed.

Lemma second_cleanup_witness :
  cleanup Demo.unsaved = (Ok tt, (cleanup Demo.unsaved).2) ∧
  cleanup (cleanup Demo.unsaved).2
  = (match workers (cleanup Demo.unsaved).2 with
     | [] => Ok tt
     | _ :: _ => Raise RaySystemError
     end, (cleanup Demo.unsaved).2).
Proof.
  assert (cleanup Demo.unsaved = (Ok tt, (cleanup Demo.unsaved).2)) as Hrun
    by (vm_compute; reflexivity).
  split; [exact Hrun |].
  exact (second_cleanup _ _ Hrun).
Defined.

End Examples.

(** * Further properties of the code *)

(** ** The partition after a uniform generation *)

Section UniformPartition.
Context {A : Type}.
Implicit Types (gs : list (list A)) (k : nat).

Lemma concat_empty_lists gs : Forall (λ l, length l = 0) gs → concat gs = [].
Proof.
  induction 1 as [| l gs Hl _ IH]; [done |].
  simpl. rewrite IH. by apply nil_length_inv in Hl as ->.
Qed.

(** The [i]-th run of [k] elements of the concatenation is the [i]-th
    list. *)
Lemma take_drop_concat gs k i l :
  Forall (λ l, length l = k) gs → gs !! i = Some l →
  take k (drop (i * k) (concat gs)) = l.
Proof.
  intros Hgs. revert i. induction Hgs as [| g gs Hg _ IH]; intros i Hi; [done |].
  destruct i as [| i]; simpl in *.
  - injection Hi as <-. by apply take_app_length'.
  - rewrite drop_app_add' by done. by apply IH.
Qed.

Lemma worker_slice_concat gs k i l :
  Forall (λ l, length l = k) gs → gs !! i = Some l →
  worker_slice (concat gs) (length gs) (max 1 (length (concat gs) / length gs)) i = l.
Proof.
  intros Hgs Hi.
  pose proof (lookup_lt_Some _ _ _ Hi) as Hlt.
  pose proof (length_concat_uniform gs k Hgs) as Hlen.
  destruct (decide (k = 0)) as [-> | Hk].
  - rewrite (concat_empty_lists gs Hgs).
    assert (l = []) as ->.
    { apply nil_length_inv.
      by apply (proj1 (Forall_lookup _ _) Hgs i l). }
    unfold worker_slice, slice_bounds, py_slice.
    by rewrite drop_nil, take_nil.
  - assert (length (concat gs) / length gs = k) as Hq.
    { rewrite Hlen, Nat.mul_comm. apply Nat.div_mul. lia. }
    rewrite Hq, Nat.max_r by lia.
    destruct (decide (i < length gs - 1)) as [Hin | Hlast].
    + rewrite worker_slice_inner by done. by apply take_drop_concat.
    + replace i with (length gs - 1) in * by lia.
      rewrite worker_slice_last.
      rewrite <- (take_drop_concat gs k (length gs - 1) l Hgs Hi).
      symmetry. apply take_ge. rewrite length_drop. nia.
Qed.

End UniformPartition.

Lemma partition_responses {A} (gs : list (list A)) (k : nat) :
  0 < length gs →
  Forall (λ l, length l = k) gs →
  partition (concat gs) (length gs) = Ok gs.
Proof.
  intros Hpool Hgs. rewrite partition_ok by done. f_equal.
  apply list_eq. intros i. rewrite list_lookup_fmap.
  destruct (gs !! i) as [l |] eqn:Hi.
  - rewrite (lookup_seq_lt 0 (length gs) i) by by eapply lookup_lt_Some.
    simpl. f_equal. by eapply worker_slice_concat.
  - rewrite lookup_seq_ge; [done |]. by apply lookup_ge_None.
Qed.

(** X1: when every worker has returned the same number of nodes, the
    partition of the concatenated responses gives the responses back: worker
    [i] is assigned the nodes of response [i]. *)
Theorem partition_concat_uniform {A} (gs : list (list A)) (k : nat) :
  0 < length gs →
  Forall (λ l, length l = k) gs →
  partition (concat gs) (length gs) = Ok gs.
Proof. apply partition_responses. Qed.

Lemma partition_concat_uniform_witness :
  0 < length [[1; 2]; [3; 4]; [5; 6]] ∧
  Forall (λ l, length l = 2) [[1; 2]; [3; 4]; [5; 6]] ∧
  partition (concat [[1; 2]; [3; 4]; [5; 6]]) (length [[1; 2]; [3; 4]; [5; 6]])
  = Ok [[1; 2]; [3; 4]; [5; 6]].
Proof.
  assert (0 < length [[1; 2]; [3; 4]; [5; 6]]) as Hpool by (simpl; lia).
  assert (Forall (λ l, length l = 2) [[1; 2]; [3; 4]; [5; 6]]) as Hgs
    by (repeat constructor).
  split; [exact Hpool |]. split; [exact Hgs |].
  exact (partition_concat_uniform _ 2 Hpool Hgs).
Defined.

(** ** More reasoning about the monad *)

Section MoreMonadFacts.
Context {S : Type}.

(** A loop keeps what its body keeps of the accumulator. *)
Lemma returns_fold_M_inv {A B} (f : B → A → M S B) (Inv : B → Prop) l acc :
  Inv acc →
  (∀ acc x, Inv acc → returns (f acc x) Inv) →
  returns (fold_M f acc l) Inv.
Proof.
  intros Hacc Hf. revert acc Hacc. induction l as [| x l IH]; intros acc Hacc; simpl.
  - by apply returns_ret.
  - eapply returns_bind; [by apply Hf | intros acc' Hacc']. by apply IH.
Qed.

End MoreMonadFacts.

(** ** More on the worker *)

Section WorkerFacts.
Context `{Collaborators}.
Implicit Types (w : ParallelWorker) (n : Node Scalar ExecutionResult).

Lemma returns_lift_core {A} (m : M Core A) (P : A → Prop) :
  returns m P → returns (lift_core m) P.
Proof.
  intros Hm w a w' Hrun. rewrite lift_core_run in Hrun.
  destruct (m (core w)) as [r c] eqn:Hmc. simpl in Hrun.
  injection Hrun as -> _. by eapply Hm.
Qed.

(** What the methods of a worker keep of the worker, when it does not
    depend on the core or on the log. *)
Section Kept.
Variable P : ParallelWorker → Prop.
Hypothesis P_core : ∀ w c, P w → P (set_core w c).
Hypothesis P_log : ∀ w lvl msg, P w → P (w_log lvl msg w).2.

Lemma maintains_w_log lvl msg : maintains P (w_log lvl msg).
Proof using P_log. intros w Hw. by apply P_log. Qed.

Lemma maintains_lift_core {A} (m : M Core A) : maintains P (lift_core m).
Proof using P_core. intros w Hw. rewrite lift_core_run. by apply P_core. Qed.

Lemma maintains_generate_nodes parent_node k : maintains P (generate_nodes parent_node k).
Proof using P_core P_log.
  unfold generate_nodes.
  apply maintains_bind; [apply maintains_w_log | intros _].
  apply maintains_bind.
  { apply maintains_fold_M. intros acc _.
    apply maintains_bind; [| intros x; apply (maintains_ret P)].
    destruct parent_node as [p |]; [destruct (truthy (is_buggy p)) |];
      apply maintains_lift_core. }
  intros l. apply maintains_bind; [apply maintains_w_log | intros _].
  apply (maintains_ret P).
Qed.

Lemma maintains_search_and_generate k : maintains P (search_and_generate k).
Proof using P_core P_log.
  unfold search_and_generate.
  apply maintains_bind; [apply maintains_lift_core | intros parent_node].
  apply maintains_bind; [apply maintains_w_log | intros _].
  apply maintains_generate_nodes.
Qed.

Lemma maintains_execute_and_evaluate_node n :
  maintains P (execute_and_evaluate_node n).
Proof using P_core P_log.
  unfold execute_and_evaluate_node, parse_exec_result.
  apply maintains_try_except.
  - apply maintains_bind; [apply maintains_gets | intros actor].
    apply maintains_bind; [apply maintains_w_log | intros _].
    apply maintains_bind; [apply maintains_lift_core | intros r].
    apply maintains_bind.
    { apply maintains_bind; [apply maintains_lift_core | intros v].
      apply (maintains_ret P). }
    intros n'. apply maintains_bind; [apply maintains_w_log | intros _].
    apply (maintains_ret P).
  - intros e. apply maintains_bind; [apply maintains_gets | intros actor].
    apply maintains_bind; [apply maintains_w_log | intros _].
    apply maintains_raise.
Qed.

Lemma maintains_cleanup_interpreter : maintains P cleanup_interpreter.
Proof using P_core. apply maintains_lift_core. Qed.

Lemma maintains_get_data_preview : maintains P get_data_preview.
Proof. apply maintains_gets. Qed.

End Kept.

(** Every node that [generate_nodes] returns is one that the operation for
    the parent returned. *)
Lemma generate_nodes_from (Q : Node Scalar ExecutionResult → Prop) parent_node k :
  returns match parent_node with
          | None => _draft
          | Some p => if truthy (is_buggy p) then _debug p else _improve p
          end Q →
  returns (generate_nodes parent_node k) (Forall Q).
Proof.
  intros Hop. unfold generate_nodes.
  eapply returns_bind; [apply returns_any | intros _ _].
  eapply returns_bind.
  { apply (returns_fold_M_inv _ (Forall Q)); [constructor |].
    intros acc _ Hacc.
    eapply returns_bind; [| intros x Hx; apply returns_ret, Forall_app; split;
                              [exact Hacc | by constructor]].
    destruct parent_node as [p |]; [destruct (truthy (is_buggy p)) |];
      by apply returns_lift_core. }
  intros l Hl. eapply returns_bind; [apply returns_any | intros _ _].
  by apply returns_ret.
Qed.

(** X2: a worker that is asked for [k] nodes and returns has produced [k]
    nodes, whatever parent its search policy has selected, and is still the
    same actor with the same data preview. *)
Theorem search_and_generate_count k w l w' :
  search_and_generate k w = (Ok l, w') →
  length l = k ∧ actor_id w' = actor_id w ∧ w_data_preview w' = w_data_preview w.
Proof.
  intros Hrun. split; [by eapply search_and_generate_length |].
  replace w' with (search_and_generate k w).2 by by rewrite Hrun.
  split.
  - by apply (maintains_search_and_generate (λ x, actor_id x = actor_id w)).
  - by apply (maintains_search_and_generate
                (λ x, w_data_preview x = w_data_preview w)).
Qed.

(** X3: the nodes that [generate_nodes] returns all come from one
    operation, chosen by the parent: [_draft] without a parent, [_debug] for
    a buggy parent and [_improve] otherwise; what holds of every node of that
    operation holds of every node returned. *)
Theorem generated_by_strategy (Q : Node Scalar ExecutionResult → Prop)
    parent_node k w l w' :
  (∀ c x c',
     match parent_node with
     | None => _draft
     | Some p => if truthy (is_buggy p) then _debug p else _improve p
     end c = (Ok x, c') → Q x) →
  generate_nodes parent_node k w = (Ok l, w') →
  Forall Q l.
Proof. intros Hop Hrun. by eapply (generate_nodes_from Q). Qed.

(** X4: an evaluation adds two records to the log of the worker, the first
    about the start; the second is the error record when it raises and the
    completion record when it returns a node.  The worker stays the same
    actor with the same data preview. *)
Theorem evaluation_outcome_logged n w :
  actor_id (execute_and_evaluate_node n w).2 = actor_id w ∧
  w_data_preview (execute_and_evaluate_node n w).2 = w_data_preview w ∧
  w_logger (execute_and_evaluate_node n w).2
  = w_logger w
    ++ [(INFO, Executing (actor_id w) (id n));
        match (execute_and_evaluate_node n w).1 with
        | Ok n' => (INFO, Completed (actor_id w) (id n) (metric n'))
        | Raise e => (ERROR, FailedExecuting (actor_id w) (id n) (str e))
        end].
Proof.
  split; [by apply (maintains_execute_and_evaluate_node (λ x, actor_id x = actor_id w)) |].
  split; [by apply (maintains_execute_and_evaluate_node
                      (λ x, w_data_preview x = w_data_preview w)) |].
  unfold execute_and_evaluate_node, parse_exec_result, try_except,
    mbind, M_bind, bind.
  cbn. rewrite lift_core_run. cbn.
  destruct (interpreter_run (code n) true (core w)) as [[r | e] c1]; cbn.
  - rewrite lift_core_run. cbn.
    destruct (classify (absorb_exec_result n r) r c1) as [[v | e] c2]; cbn;
      by rewrite <- app_assoc.
  - by rewrite <- app_assoc.
Qed.

End WorkerFacts.

(** ** More on the scheduler *)

Section SchedulerFacts.
Context `{Collaborators}.
Implicit Types (s : ParallelAgent) (n : nat).

(** *** The outcomes of a step *)

Lemma save_results_run n s :
  (save_results n s).1 = Ok tt ∧ journal (save_results n s).2 = journal s.
Proof.
  unfold save_results, try_except, mbind, M_bind, bind. cbn.
  by destruct (save_run (cfg s) (journal s)).
Qed.

(** A step raises in its first part, or at the second barrier, or it
    aggregates what the barrier has returned and returns. *)
Lemma step_outcome s :
  (∃ e s1, submitted s = (Raise e, s1) ∧ step s = (Raise e, s1)) ∨
  (∃ n futures s1 e,
     submitted s = (Ok (n, futures), s1) ∧ ray_get futures = Raise e ∧
     step s = (Raise e, add_log s1 (INFO, WaitingForExecutions n (length futures)))) ∨
  (∃ n futures s1 evaluated s2,
     submitted s = (Ok (n, futures), s1) ∧ ray_get futures = Ok evaluated ∧
     (step s).1 = Ok tt ∧
     journal (step s).2 = journal s2 ∧
     nodes (journal s2) = nodes (journal s1) ++ evaluated ∧
     draft_nodes (journal s2)
     = draft_nodes (journal s1) ++ filter (λ x, parent x = None) evaluated).
Proof.
  destruct (submitted s) as [[[n futures] | e] s1] eqn:Hsub.
  - destruct (ray_get futures) as [evaluated | e] eqn:Hget.
    + right. right.
      set (s1' := add_log (add_log s1 (INFO, WaitingForExecutions n (length futures)))
                    (INFO, AllExecutionsCompleted n)).
      pose proof (aggregate_journal n evaluated s1') as (Hok & Hn & Hd).
      destruct (aggregate n evaluated s1') as [r s2] eqn:Hagg. simpl in *. subst r.
      assert (aggregated s = (Ok n, s2)) as Haggd.
      { unfold aggregated. erewrite bind_run by exact Hsub. cbn.
        erewrite bind_run by (rewrite collect_run, Hget; reflexivity).
        by erewrite bind_run by exact Hagg. }
      exists n, futures, s1, evaluated, s2.
      pose proof (save_results_run n s2) as [Hsave Hj].
      split; [done |]. split; [done |].
      unfold step. erewrite bind_run by exact Haggd. done.
    + right. left. exists n, futures, s1, e. split; [done |]. split; [done |].
      unfold step, aggregated. erewrite bind_raise; [done |].
      erewrite bind_run by exact Hsub. cbn.
      erewrite bind_raise; [done |]. by rewrite collect_run, Hget.
  - left. exists e, s1. split; [done |].
    unfold step, aggregated. erewrite bind_raise; [done |].
    by erewrite bind_raise.
Qed.

Lemma submitted_journal s : journal (submitted s).2 = journal s.
Proof. by apply (submitted_keeps journal). Qed.

Lemma raising_step_journal s e :
  (step s).1 = Raise e → journal (step s).2 = journal s.
Proof.
  intros Hraise. pose proof (submitted_journal s) as Hj.
  destruct (step_outcome s) as
    [(e' & s1 & Hsub & Hstep) |
     [(n & fs & s1 & e' & Hsub & _ & Hstep) |
      (n & fs & s1 & ev & s2 & _ & _ & Hok & _)]].
  - rewrite Hsub in Hj. by rewrite Hstep.
  - rewrite Hsub in Hj. by rewrite Hstep.
  - congruence.
Qed.

(** X5: a step only ever extends the journal: the main collection by some
    nodes, at its end, and the draft list by those among them that have no
    parent; nothing is removed or reordered, whether the step returns or
    raises. *)
Theorem step_extends_journal s :
  ∃ evaluated,
    nodes (journal (step s).2) = nodes (journal s) ++ evaluated ∧
    draft_nodes (journal (step s).2)
    = draft_nodes (journal s) ++ filter (λ x, parent x = None) evaluated.
Proof.
  pose proof (submitted_journal s) as Hj.
  destruct (step_outcome s) as
    [(e' & s1 & Hsub & Hstep) |
     [(n & fs & s1 & e' & Hsub & _ & Hstep) |
      (n & fs & s1 & ev & s2 & Hsub & _ & _ & Hjs & Hn & Hd)]];
    rewrite Hsub in Hj; simpl in Hj.
  - exists []. rewrite Hstep. simpl. by rewrite Hj, !app_nil_r.
  - exists []. rewrite Hstep. simpl. by rewrite Hj, !app_nil_r.
  - exists ev. by rewrite Hjs, Hn, Hd, Hj.
Qed.

(** X6: a step that raises, for whatever reason, leaves the journal as it
    was when the step began. *)
Theorem failed_step_keeps_journal s e :
  (step s).1 = Raise e → journal (step s).2 = journal s.
Proof. apply raising_step_journal. Qed.

(** *** The empty pool *)

Lemma step_without_workers s :
  workers s = [] → is_Some (data_preview s) →
  (step s).1 = Raise ZeroDivisionError ∧ ray_calls (step s).2 = ray_calls s.
Proof.
  intros Hw [v Hv]. destruct s as [c0 j0 dp nw k lg ws up calls].
  simpl in *. subst ws dp.
  unfold step, aggregated, submitted, start_step, update_data_preview, propose,
    dispatch, mbind, M_bind, bind.
  cbn. by destruct (nodes j0).
Qed.

Lemma reachable_preview task c j s :
  reachable task c j s → preview_cached (initial_preview c) s.
Proof.
  assert (maintains (preview_cached (initial_preview c)) update_data_preview) as Hupdate.
  { intros s' Hs'. by rewrite (update_data_preview_set s' _ (proj1 Hs')). }
  induction 1 as [| s Hs IH | s Hs IH].
  - split; [done |]. intros [i Hi]. by apply elem_of_nil in Hi.
  - apply (maintains_step (preview_cached (initial_preview c))
             (λ m, m ≠ Call_get_data_preview)); try done.
    intros s' i m w. apply preview_cached_task.
  - apply (maintains_cleanup (preview_cached (initial_preview c))
             (λ m, m ≠ Call_get_data_preview)); try done.
    intros s' i m w. apply preview_cached_task.
Qed.

(** X7: a scheduler that is configured with no worker raises
    [ZeroDivisionError] on every step, at the division by the size of the
    pool; it submits no task and the journal stays as it is. *)
Theorem step_of_empty_pool task c j s :
  reachable task c j s →
  cfg_num_workers c = 0 →
  (step s).1 = Raise ZeroDivisionError ∧
  ray_calls (step s).2 = ray_calls s ∧
  journal (step s).2 = journal s.
Proof.
  intros Hreach Hzero.
  pose proof (reachable_shaped _ _ _ _ Hreach) as (Hpool & _ & _).
  pose proof (reachable_preview _ _ _ _ Hreach) as [Hv _].
  assert (workers s = []) as Hw by (apply nil_length_inv; lia).
  destruct (step_without_workers s Hw) as [Hraise Hcalls]; [by eexists |].
  split; [done |]. split; [done |]. by eapply raising_step_journal.
Qed.

(** *** The first barrier *)

(** X8: when the propose phase raises, the step raises the same exception
    there, and the remote calls that the step has submitted are all calls of
    other methods than [execute_and_evaluate_node]: no evaluation has been
    submitted. *)
Theorem failed_proposal_submits_no_evaluation s n s1 e s2 :
  start_step s = (Ok n, s1) →
  propose n s1 = (Raise e, s2) →
  step s = (Raise e, s2) ∧
  ∃ added,
    ray_calls s2 = ray_calls s ++ added ∧
    Forall (λ call, call.2 ≠ Call_execute_and_evaluate_node) added.
Proof.
  intros Hstart Hpropose. split.
  - unfold step, aggregated, submitted.
    erewrite bind_raise; [done |]. erewrite bind_raise; [done |].
    erewrite bind_run by exact Hstart. by erewrite bind_raise.
  - set (I := λ x : ParallelAgent,
               ∃ added,
                 ray_calls x = ray_calls s ++ added ∧
                 Forall (λ call : nat * method,
                           call.2 ≠ Call_execute_and_evaluate_node) added).
    assert (∀ x r, I x → I (add_log x r)) as Hlog by done.
    assert (∀ x i m w, m ≠ Call_execute_and_evaluate_node → I x → I (ran_task x i m w))
      as Htask.
    { intros x i m w Hm (added & Hcalls & Hadded).
      exists (added ++ [(i, m)]). split.
      - simpl. by rewrite Hcalls, app_assoc.
      - apply Forall_app. split; [done |]. by apply Forall_singleton. }
    assert (I s) as Hs.
    { exists []. split; [by rewrite app_nil_r | constructor]. }
    assert (I s1) as Hs1.
    { replace s1 with (start_step s).2 by by rewrite Hstart.
      apply (maintains_start_step I); [exact Hlog | | exact Hs].
      apply (maintains_update_data_preview I
               (λ m, m ≠ Call_execute_and_evaluate_node)); [exact Htask | | done].
      intros x v Hx. exact Hx. }
    replace s2 with (propose n s1).2 by by rewrite Hpropose.
    apply (maintains_propose I (λ m, m ≠ Call_execute_and_evaluate_node));
      [exact Hlog | exact Htask | done | exact Hs1].
Qed.

(** *** Teardown *)

Lemma teardown_request i s r s' :
  (future ← remote i Call_cleanup_interpreter cleanup_interpreter;
   lift_result future) s = (r, s') →
  ray_initialized s' = ray_initialized s ∧
  (r = Ok tt → ray_calls s' = ray_calls s ++ [(i, Call_cleanup_interpreter)]).
Proof.
  unfold remote, mbind, M_bind, bind, lift_result. intros Hrun.
  destruct (ray_initialized s) eqn:Hup; [| by injection Hrun as <- <-].
  destruct (workers s !! i) as [w |]; [| by injection Hrun as <- <-].
  destruct (cleanup_interpreter w) as [[[] | e] w']; by injection Hrun as <- <-.
Qed.

Lemma teardown_loop n : ∀ a s r s',
  for_each (seq a n)
    (λ i, future ← remote i Call_cleanup_interpreter cleanup_interpreter;
          lift_result future) s = (r, s') →
  ray_initialized s' = ray_initialized s ∧
  (r = Ok tt →
   ray_calls s' = ray_calls s ++ ((λ i, (i, Call_cleanup_interpreter)) <$> seq a n)).
Proof.
  induction n as [| n IH]; intros a s r s' Hrun; simpl in Hrun.
  - injection Hrun as <- <-. split; [done |]. intros _. by rewrite app_nil_r.
  - destruct ((future ← remote a Call_cleanup_interpreter cleanup_interpreter;
               lift_result future) s) as [[[] | e] s1] eqn:Hreq.
    + erewrite bind_run in Hrun by exact Hreq.
      apply teardown_request in Hreq as [Hup1 Hcalls1].
      apply IH in Hrun as [Hup Hcalls]. split; [congruence |].
      intros Hok. rewrite (Hcalls Hok), Hcalls1 by done.
      rewrite <- app_assoc. reflexivity.
    + erewrite bind_raise in Hrun by exact Hreq. injection Hrun as <- <-.
      apply teardown_request in Hreq as [Hup1 _]. by split.
Qed.


Lemma cleanup_ok s s' :
  cleanup s = (Ok tt, s') →
  ray_initialized s' = false ∧
  ray_calls s' = ray_calls s ++ teardown_requests (length (workers s)) ∧
  journal s' = journal s ∧ logger s' = logger s ∧
  data_preview s' = data_preview s ∧
  length (workers s') = length (workers s).
Proof.
  intros Hrun.
  assert (∀ {X} (f : ParallelAgent → X),
            (∀ x i m w, f (ran_task x i m w) = f x) →
            (∀ x, f (set_ray_initialized x false) = f x) →
            f s' = f s) as Hkeep.
  { intros X f Htask Hdown.
    replace s' with (cleanup s).2 by by rewrite Hrun.
    apply (maintains_cleanup (λ x, f x = f s) (λ _, True)); try done.
    - intros x i m w _ <-. apply Htask.
    - intros x <-. apply Hdown. }
  unfold cleanup in Hrun.
  apply bind_ok in Hrun as (pool & s0 & [= <- <-] & Hrun).
  apply bind_ok in Hrun as ([] & s1 & Hloop & [= <-]).
  apply teardown_loop in Hloop as [_ Hcalls].
  split; [done |]. split; [by apply Hcalls |].
  split; [by apply (Hkeep _ journal) |].
  split; [by apply (Hkeep _ logger) |].
  split; [by apply (Hkeep _ data_preview) |].
  apply (Hkeep _ (λ x, length (workers x))); [| done].
  intros x i m w. cbn. by rewrite length_insert.
Qed.

(** X10: a [cleanup] that returns has sent one teardown request to every
    worker, in pool order, and nothing else; it has shut the runtime down and
    has left the journal, the log and the data preview alone. *)
Theorem cleanup_tears_down_every_worker s s' :
  cleanup s = (Ok tt, s') →
  ray_initialized s' = false ∧
  ray_calls s' = ray_calls s ++ teardown_requests (length (workers s)) ∧
  journal s' = journal s ∧ logger s' = logger s ∧
  data_preview s' = data_preview s.
Proof. intros Hrun. by apply cleanup_ok in Hrun as (? & ? & ? & ? & ? & _). Qed.

Lemma step_on_stopped_runtime s :
  ray_initialized s = false → workers s ≠ [] →
  (step s).1 = Raise RaySystemError.
Proof.
  intros Hup Hw. destruct s as [c0 j0 dp nw k lg ws up calls].
  simpl in *. subst up. destruct ws as [| w ws]; [done |].
  unfold step, aggregated, submitted, start_step, update_data_preview, propose,
    remote, mbind, M_bind, bind.
  cbn. destruct (nodes j0), dp; by cbn.
Qed.

(** X11: after a [cleanup] that has returned, a step of a scheduler with at
    least one worker raises, because the runtime is down, and leaves the
    journal as it was. *)
Theorem step_after_cleanup_raises s s1 :
  cleanup s = (Ok tt, s1) →
  workers s ≠ [] →
  (step s1).1 = Raise RaySystemError ∧ journal (step s1).2 = journal s.
Proof.
  intros Hrun Hw. apply cleanup_ok in Hrun as (Hup & _ & Hj & _ & _ & Hlen).
  assert (workers s1 ≠ []) as Hw1.
  { intros Hnil. apply Hw, nil_length_inv. by rewrite <- Hlen, Hnil. }
  pose proof (step_on_stopped_runtime s1 Hup Hw1) as Hraise.
  split; [done |]. rewrite <- Hj. by eapply raising_step_journal.
Qed.

(** *** The statistics of a step *)

Lemma fold_aggregate_statistics evaluated : ∀ st s,
  (fold_M aggregate_node st evaluated s).1 = Ok (foldl track st evaluated) ∧
  logger (fold_M aggregate_node st evaluated s).2 = logger s.
Proof.
  induction evaluated as [| x evaluated IH]; intros st s; [done |].
  simpl. destruct (aggregate_node st x s) as [r s1] eqn:Hnode.
  assert (r = Ok (track st x) ∧ logger s1 = logger s) as [-> Hlog].
  { unfold aggregate_node, mbind, M_bind, bind in Hnode.
    destruct (parent x); cbn in Hnode; by injection Hnode as <- <-. }
  erewrite !bind_run by exact Hnode.
  destruct (IH (track st x) s1) as [Hr Hl]. by rewrite <- Hlog.
Qed.

Lemma track_counts evaluated : ∀ st,
  successful_nodes (foldl track st evaluated)
  = successful_nodes st + length (filter (λ x, truthy (is_buggy x) = false) evaluated) ∧
  buggy_nodes (foldl track st evaluated)
  = buggy_nodes st + length (filter (λ x, truthy (is_buggy x) = true) evaluated).
Proof.
  induction evaluated as [| x evaluated IH]; intros st; simpl; [lia |].
  destruct (IH (track st x)) as [Hs Hb]. rewrite Hs, Hb, !filter_cons.
  unfold track. destruct (truthy (is_buggy x)) eqn:Hx; simpl; lia.
Qed.

Lemma track_best evaluated : ∀ st,
  best_metric (foldl track st evaluated) = best_metric st ∨
  ∃ x, x ∈ evaluated ∧ truthy (is_buggy x) = false ∧
       is_Some (metric x) ∧ metric x = best_metric (foldl track st evaluated).
Proof.
  induction evaluated as [| x evaluated IH]; intros st; simpl; [by left |].
  destruct (IH (track st x)) as [Hsame | (y & Hy & Hgood & Hsome & Hbest)].
  - rewrite Hsame. unfold track.
    destruct (truthy (is_buggy x)) eqn:Hx; simpl; [by left |].
    destruct (metric x) as [value |] eqn:Hm; [| by left].
    destruct (match best_metric st with
              | Some best => scalar_gt value best
              | None => gt_neg_inf value
              end); [| by left].
    right. exists x. rewrite Hm. repeat split; [apply elem_of_cons; by left | done | by eexists].
  - right. exists y. repeat split; [apply elem_of_cons; by right | done | done | done].
Qed.

(** X12: the record that closes the aggregation counts the evaluated nodes
    that are buggy and those that are not, which together are all of them;
    the best metric that it reports, if any, is the metric of an evaluated
    node that is not buggy. *)
Theorem step_statistics n (evaluated : list (Node Scalar ExecutionResult)) s :
  ∃ best,
    logger (aggregate n evaluated s).2
    = logger s
      ++ [(INFO, StepCompleted n
                   (length (filter (λ x, truthy (is_buggy x) = false) evaluated))
                   (length (filter (λ x, truthy (is_buggy x) = true) evaluated))
                   best)] ∧
    length (filter (λ x, truthy (is_buggy x) = false) evaluated)
    + length (filter (λ x, truthy (is_buggy x) = true) evaluated)
    = length evaluated ∧
    (best = None ∨
     ∃ x, x ∈ evaluated ∧ truthy (is_buggy x) = false ∧ metric x = best).
Proof.
  set (st0 := {| successful_nodes := 0; buggy_nodes := 0; best_metric := None |}).
  exists (best_metric (foldl track st0 evaluated)).
  destruct (fold_aggregate_statistics evaluated st0 s) as [Hr Hl].
  destruct (track_counts evaluated st0) as [Hs Hb]. simpl in Hs, Hb.
  split; [| split].
  - unfold aggregate. fold st0.
    destruct (fold_M aggregate_node st0 evaluated s) as [r s1] eqn:Hfold.
    simpl in Hr, Hl. subst r. erewrite bind_run by exact Hfold.
    cbn. by rewrite Hl, Hs, Hb.
  - clear. induction evaluated as [| x l IH]; [done |].
    rewrite !filter_cons. destruct (truthy (is_buggy x)); simpl; lia.
  - destruct (track_best evaluated st0) as [Hsame | (x & Hx & Hgood & _ & Hbest)].
    + by left.
    + right. by exists x.
Qed.

(** *** What stays fixed in the pool *)

(** The pool keeps what the tasks of the four methods keep of a worker. *)
Lemma maintains_remote_pool {A} (P : ParallelWorker → Prop) i m
    (task : M ParallelWorker A) :
  maintains P task →
  maintains (λ s, Forall P (workers s)) (remote i m task).
Proof.
  intros Htask s Hs. unfold remote.
  destruct (ray_initialized s); [| done].
  destruct (workers s !! i) as [w |] eqn:Hw; [| done].
  pose proof (Htask w (proj1 (Forall_lookup _ _) Hs i w Hw)) as Hw'.
  destruct (task w) as [r w']. simpl in *. by apply Forall_insert.
Qed.

Section PoolKept.
Variable P : ParallelWorker → Prop.
Hypothesis P_core : ∀ w c, P w → P (set_core w c).
Hypothesis P_log : ∀ w lvl msg, P w → P (w_log lvl msg w).2.

Lemma pool_kept_by_step : maintains (λ s, Forall P (workers s)) step.
Proof using P_core P_log.
  set (I := λ s : ParallelAgent, Forall P (workers s)).
  assert (∀ lvl msg, maintains I (log lvl msg)) as Hlog.
  { intros lvl msg. by apply maintains_modify. }
  assert (maintains I update_data_preview) as Hupdate.
  { unfold update_data_preview.
    apply maintains_bind; [apply maintains_gets | intros [v |]];
      [apply (maintains_ret I) |].
    apply maintains_bind; [apply maintains_gets | intros pool].
    case_decide; [apply maintains_raise |].
    apply maintains_bind;
      [apply maintains_remote_pool, maintains_get_data_preview | intros future].
    apply maintains_bind; [apply maintains_lift_result | intros v].
    by apply maintains_modify. }
  assert (∀ n, maintains I (propose n)) as Hpropose.
  { intros n. unfold propose.
    apply maintains_bind; [apply maintains_gets | intros k].
    apply maintains_bind; [apply maintains_gets | intros pool].
    apply maintains_bind.
    { apply maintains_map_M. intros i.
      by apply maintains_remote_pool, maintains_search_and_generate. }
    intros futures. apply maintains_bind; [apply Hlog | intros _].
    apply maintains_bind; [apply maintains_lift_result | intros generated].
    apply maintains_bind; [apply Hlog | intros _]. apply (maintains_ret I). }
  assert (∀ n all_nodes, maintains I (dispatch n all_nodes)) as Hdispatch.
  { intros n all_nodes. unfold dispatch, assign.
    apply maintains_bind; [apply maintains_gets | intros pool].
    apply maintains_bind; [apply maintains_lift_result | intros npe].
    apply maintains_bind; [apply Hlog | intros _].
    apply maintains_fold_M. intros acc i.
    apply maintains_bind; [apply Hlog | intros _].
    apply maintains_bind; [| intros fs; apply (maintains_ret I)].
    apply maintains_map_M. intros x.
    by apply maintains_remote_pool, maintains_execute_and_evaluate_node. }
  unfold step, aggregated, submitted, start_step.
  apply maintains_bind; [| intros n; by apply maintains_save_results].
  apply maintains_bind.
  { apply maintains_bind.
    { apply maintains_bind; [apply maintains_gets | intros n].
      apply maintains_bind; [apply Hlog | intros _].
      apply maintains_bind; [apply maintains_gets | intros j].
      apply maintains_bind; [| intros _; apply (maintains_ret I)].
      destruct (nodes j); [| apply (maintains_ret I)].
      apply maintains_bind; [exact Hupdate | intros _; apply Hlog]. }
    intros n. apply maintains_bind; [apply Hpropose | intros all_nodes].
    apply maintains_bind; [apply Hdispatch | intros futures].
    apply (maintains_ret I). }
  intros [n futures].
  apply maintains_bind; [by apply maintains_collect | intros evaluated].
  apply maintains_bind; [by apply maintains_aggregate | intros _].
  apply (maintains_ret I).
Qed.

Lemma pool_kept_by_cleanup : maintains (λ s, Forall P (workers s)) cleanup.
Proof using P_core.
  unfold cleanup, ray_shutdown.
  apply maintains_bind; [apply maintains_gets | intros pool].
  apply maintains_bind; [| intros _; by apply maintains_modify].
  apply maintains_for_each. intros i.
  apply maintains_bind; [| intros future; apply maintains_lift_result].
  by apply maintains_remote_pool, maintains_cleanup_interpreter.
Qed.

End PoolKept.

(** X13: every worker holds the data preview that the constructor gave it,
    which is the one of the scheduler, for the scheduler's lifetime. *)
Theorem workers_hold_the_preview task c j s :
  reachable task c j s →
  data_preview s = Some (initial_preview c) ∧
  Forall (λ w, w_data_preview w = initial_preview c) (workers s).
Proof.
  intros Hreach. split; [by apply (reachable_preview _ _ _ _ Hreach) |].
  induction Hreach as [| s Hs IH | s Hs IH].
  - apply Forall_fmap, Forall_forall. done.
  - by apply (pool_kept_by_step (λ w, w_data_preview w = initial_preview c)).
  - by apply (pool_kept_by_cleanup (λ w, w_data_preview w = initial_preview c)).
Qed.

Lemma reachable_cfg task c j s : reachable task c j s → cfg s = c.
Proof.
  induction 1 as [| s Hs IH | s Hs IH]; [done | |].
  - apply (maintains_step (λ x, cfg x = c) (λ _, True)); try done.
    apply maintains_update_data_preview with (allowed := λ _, True); done.
  - apply (maintains_cleanup (λ x, cfg x = c) (λ _, True)); done.
Qed.

(** X14: the configuration, the size of the pool and the two counts of a
    scheduler are those it was constructed with, after any number of steps
    and teardowns. *)
Theorem pool_is_fixed task c j s :
  reachable task c j s →
  cfg s = c ∧
  length (workers s) = cfg_num_workers c ∧
  num_workers s = cfg_num_workers c ∧
  nodes_per_worker s = cfg_nodes_per_worker c.
Proof.
  intros Hreach. split; [by eapply reachable_cfg |]. by eapply reachable_shaped.
Qed.

(** *** The work of a step *)

(** The responses that the first barrier has collected. *)
Lemma propose_responses n s all_nodes s' :
  propose n s = (Ok all_nodes, s') →
  ∃ responses,
    all_nodes = concat responses ∧
    length responses = length (workers s) ∧
    Forall (λ l, length l = nodes_per_worker s) responses.
Proof.
  unfold propose. intros Hrun.
  apply bind_ok in Hrun as (k & s1 & [= <- <-] & Hrun).
  apply bind_ok in Hrun as (pool & s1 & [= <- <-] & Hrun).
  apply bind_ok in Hrun as (node_futures & s1 & Hmap & Hrun).
  apply bind_ok in Hrun as ([] & s2 & _ & Hrun).
  apply bind_ok in Hrun as (generated & s3 & Hget & Hrun).
  apply bind_ok in Hrun as ([] & s4 & _ & [= <- _]).
  unfold lift_result in Hget. injection Hget as Hget _.
  apply ray_get_ok in Hget as ->.
  eapply (returns_map_M _
            (λ _ future, ∀ l, future = Ok l → length l = nodes_per_worker s)) in Hmap.
  2:{ intros i. apply returns_remote, search_and_generate_length. }
  pose proof (Forall2_length _ _ _ Hmap) as Hlen.
  rewrite length_seq, length_fmap in Hlen.
  exists generated. split; [done |]. split; [done |].
  apply Forall_forall. intros l Hl.
  apply list_elem_of_lookup in Hl as [i Hi].
  assert (is_Some (seq 0 (length (workers s)) !! i)) as [k Hk].
  { apply lookup_lt_is_Some. rewrite length_seq, Hlen. by eapply lookup_lt_Some. }
  eapply (Forall2_lookup_lr _ _ _ i k (Ok l)) in Hmap; [by apply Hmap | done |].
  by rewrite list_lookup_fmap, Hi.
Qed.

Lemma successful_step_length task c j s s' :
  reachable task c j s →
  step s = (Ok tt, s') →
  length (nodes (journal s'))
  = length (nodes (journal s)) + cfg_num_workers c * cfg_nodes_per_worker c.
Proof.
  intros Hreach Hstep.
  pose proof (reachable_shaped _ _ _ _ Hreach) as (Hpool & _ & Hk).
  destruct (step_outcome s) as
    [(e' & s1 & _ & Hraise) |
     [(n & fs & s1 & e' & _ & _ & Hraise) |
      (n & fs & s1 & ev & s2 & Hsub & Hget & _ & Hjs & Hn & _)]];
    [congruence | congruence |].
  rewrite Hstep in Hjs. simpl in Hjs. rewrite Hjs, Hn, length_app.
  pose proof (submitted_journal s) as Hj. rewrite Hsub in Hj. simpl in Hj.
  rewrite Hj. f_equal.
  unfold submitted in Hsub.
  apply bind_ok in Hsub as (n0 & sa & Hstart & Hsub).
  apply bind_ok in Hsub as (all_nodes & sb & Hpropose & Hsub).
  apply bind_ok in Hsub as (fs' & sc & Hdispatch & [= _ <- _]).
  apply dispatch_length in Hdispatch. apply propose_length in Hpropose.
  assert ((length (workers sa), nodes_per_worker sa)
          = (length (workers s), nodes_per_worker s)) as [= Hw Hkk].
  { replace sa with (start_step s).2 by by rewrite Hstart.
    apply (start_step_keeps (λ x, (length (workers x), nodes_per_worker x))).
    - done.
    - intros x i m w. cbn. by rewrite length_insert.
    - done. }
  apply ray_get_ok in Hget. rewrite Hget, length_fmap in Hdispatch. lia.
Qed.

End SchedulerFacts.

(** ** The experiment *)

Section ExperimentFacts.
Context `{Harness}.
Implicit Types (e : Experiment) (a : ParallelAgent).

Lemma agent_step_parallel e a :
  exp_agent e = ParallelA a →
  agent_step e = ((step a).1, set_exp_agent e (ParallelA (step a).2)).
Proof. intros Ha. unfold agent_step. rewrite Ha. by destruct (step a). Qed.

(** One iteration of the loop of [run] on a scheduler: the step, and then
    [save_run], which nothing guards. *)
Lemma iteration_parallel e a :
  exp_agent e = ParallelA a →
  (agent_step;;
   c ← gets exp_cfg;
   j ← gets exp_journal;
   lift_result (save_run c j)) e
  = (match (step a).1 with
     | Ok _ => save_run (exp_cfg e) (journal (step a).2)
     | Raise err => Raise err
     end, set_exp_agent e (ParallelA (step a).2)).
Proof.
  intros Ha. unfold mbind, M_bind, bind. rewrite (agent_step_parallel e a Ha).
  destruct (step a) as [[[] | err] a']; cbn; [| done].
  by destruct (save_run (exp_cfg e) (journal a')).
Qed.

Lemma run_loop_parallel task c j k : ∀ i e a e1,
  exp_agent e = ParallelA a →
  reachable task c j a →
  for_each (seq i k)
    (λ _, agent_step;;
          c ← gets exp_cfg;
          j ← gets exp_journal;
          lift_result (save_run c j)) e = (Ok tt, e1) →
  ∃ a1,
    exp_agent e1 = ParallelA a1 ∧
    reachable task c j a1 ∧
    length (nodes (journal a1))
    = length (nodes (journal a)) + k * (cfg_num_workers c * cfg_nodes_per_worker c).
Proof.
  induction k as [| k IH]; intros i e a e1 Ha Hreach Hrun; simpl in Hrun.
  - injection Hrun as <-. exists a. split; [done |]. split; [done | lia].
  - apply bind_ok in Hrun as ([] & e0 & Hiter & Hrun).
    rewrite (iteration_parallel e a Ha) in Hiter.
    destruct (step a) as [[[] | err] a'] eqn:Hstep; simpl in Hiter; [| done].
    injection Hiter as Hsave <-.
    eapply (IH _ _ a') in Hrun as (a1 & Ha1 & Hreach1 & Hlen); [| done |].
    + exists a1. split; [done |]. split; [done |].
      rewrite Hlen, (successful_step_length _ _ _ _ _ Hreach Hstep). lia.
    + replace a' with (step a).2 by by rewrite Hstep. by apply reachable_step.
Qed.

Lemma run_ok k e sol e' :
  Experiment_run k e = (Ok sol, e') →
  ∃ e1 i',
    for_each (seq 0 k)
      (λ _, agent_step;;
            c ← gets exp_cfg;
            j ← gets exp_journal;
            lift_result (save_run c j)) e = (Ok tt, e1) ∧
    interpreter_cleanup_session (exp_interpreter e1) = (Ok tt, i') ∧
    e' = set_exp_interpreter e1 i' ∧
    ∃ best_node value,
      get_best_node (exp_journal e') false = Some best_node ∧
      metric best_node = Some value ∧
      sol = {| solution_code := code best_node; valid_metric := value |}.
Proof.
  unfold Experiment_run. intros Hrun.
  apply bind_ok in Hrun as ([] & e1 & Hloop & Hrun).
  apply bind_ok in Hrun as ([] & e2 & Hclean & Hrun).
  apply bind_ok in Hrun as (jj & e3 & [= <- <-] & Hrun).
  unfold cleanup_own_session in Hclean.
  destruct (interpreter_cleanup_session (exp_interpreter e1)) as [r i'] eqn:Hsession.
  injection Hclean as -> <-.
  exists e1, i'. split; [done |]. split; [done |].
  destruct (get_best_node (exp_journal (set_exp_interpreter e1 i')) false)
    as [best_node |] eqn:Hbest; [| done].
  destruct (metric best_node) as [value |] eqn:Hvalue; [| done].
  injection Hrun as <- <-. split; [done |]. by exists best_node, value.
Qed.

(** X16: a run of [k] steps on a scheduler that returns has added to the
    shared journal [k] times the number of workers times the number of nodes
    per worker. *)
Theorem run_grows_journal task c j k e a sol e' :
  exp_agent e = ParallelA a →
  reachable task c j a →
  Experiment_run k e = (Ok sol, e') →
  length (nodes (exp_journal e'))
  = length (nodes (exp_journal e))
    + k * (cfg_num_workers c * cfg_nodes_per_worker c).
Proof.
  intros Ha Hreach Hrun.
  apply run_ok in Hrun as (e1 & i' & Hloop & _ & -> & _).
  eapply run_loop_parallel in Hloop as (a1 & Ha1 & _ & Hlen); [| done | done].
  unfold exp_journal. simpl. by rewrite Ha1, Ha.
Qed.

(** X17: a run returns a solution only when the journal, after the steps,
    has a best node among all nodes, buggy or not, and that node has a
    metric; the solution is the code and the metric of that node. *)
Theorem run_returns_best_node k e sol e' :
  Experiment_run k e = (Ok sol, e') →
  ∃ best_node value,
    get_best_node (exp_journal e') false = Some best_node ∧
    metric best_node = Some value ∧
    sol = {| solution_code := code best_node; valid_metric := value |}.
Proof. intros Hrun. by apply run_ok in Hrun as (e1 & i' & _ & _ & _ & Hbest). Qed.

(** X18: when a step of the scheduler raises, the run raises the same
    exception at once: no further step is made, the run is not saved and the
    session of the experiment's interpreter is not cleaned up. *)
Theorem run_stops_at_failed_step k e a err :
  exp_agent e = ParallelA a →
  (step a).1 = Raise err →
  Experiment_run (S k) e = (Raise err, set_exp_agent e (ParallelA (step a).2)).
Proof.
  intros Ha Hraise. unfold Experiment_run.
  erewrite bind_raise; [done |]. simpl.
  erewrite bind_raise; [done |].
  by rewrite (iteration_parallel e a Ha), Hraise.
Qed.

(** X19: the call of [save_run] that [run] makes after a step of the
    scheduler has returned is outside any handler: when it raises, the run
    raises the same exception at once; no further step is made and the
    session of the experiment's interpreter is not cleaned up. *)
Theorem run_raises_persistence_failure k e a err :
  exp_agent e = ParallelA a →
  (step a).1 = Ok tt →
  save_run (exp_cfg e) (journal (step a).2) = Raise err →
  Experiment_run (S k) e = (Raise err, set_exp_agent e (ParallelA (step a).2)).
Proof.
  intros Ha Hstep Hsave. unfold Experiment_run.
  erewrite bind_raise; [done |]. simpl.
  erewrite bind_raise; [done |].
  by rewrite (iteration_parallel e a Ha), Hstep, Hsave.
Qed.

(** X20: [Experiment.cleanup] cleans up the session of the experiment's
    interpreter first: when that raises, the pool of the scheduler is not
    torn down; when [Experiment.cleanup] returns, the runtime of the
    scheduler is down. *)
Theorem experiment_cleanup_order e a :
  exp_agent e = ParallelA a →
  (∀ err,
     (interpreter_cleanup_session (exp_interpreter e)).1 = Raise err →
     (Experiment_cleanup e).1 = Raise err ∧
     exp_agent (Experiment_cleanup e).2 = ParallelA a) ∧
  ((Experiment_cleanup e).1 = Ok tt →
   ∃ a', exp_agent (Experiment_cleanup e).2 = ParallelA a' ∧
         ray_initialized a' = false ∧ journal a' = journal a).
Proof.
  intros Ha.
  unfold Experiment_cleanup, cleanup_own_session, agent_cleanup, mbind, M_bind, bind.
  destruct (interpreter_cleanup_session (exp_interpreter e)) as [[[] | err0] i'];
    cbn; rewrite Ha.
  - split; [done |].
    destruct (cleanup a) as [[[] | err1] a'] eqn:Hclean; cbn; [| done].
    intros _. exists a'. split; [done |].
    by apply cleanup_ok in Hclean as (? & _ & ? & _).
  - split; [| done]. by intros err [= ->].
Qed.

End ExperimentFacts.

(** ** The further properties on the small instance *)

Section MoreExamples.
#[local] Existing Instance Demo.collaborators.
#[local] Existing Instance DemoHarness.harness.

Lemma search_and_generate_count_witness :
  search_and_generate 2 (Demo.worker "print(1)")
  = (Ok [Scenario.drafted; Scenario.drafted],
     (search_and_generate 2 (Demo.worker "print(1)")).2) ∧
  length [Scenario.drafted; Scenario.drafted] = 2 ∧
  actor_id (search_and_generate 2 (Demo.worker "print(1)")).2
  = actor_id (Demo.worker "print(1)") ∧
  w_data_preview (search_and_generate 2 (Demo.worker "print(1)")).2
  = w_data_preview (Demo.worker "print(1)").
Proof.
  assert (search_and_generate 2 (Demo.worker "print(1)")
          = (Ok [Scenario.drafted; Scenario.drafted],
             (search_and_generate 2 (Demo.worker "print(1)")).2)) as Hrun
    by (vm_compute; reflexivity).
  split; [exact Hrun |].
  exact (search_and_generate_count _ _ _ _ Hrun).
Defined.

Lemma generated_by_strategy_witness :
  (∀ c x c',
     match @None (Node nat string) with
     | None => _draft
     | Some p => if truthy (is_buggy p) then _debug p else _improve p
     end c = (Ok x, c') → parent x = None) ∧
  generate_nodes None 2 (Demo.worker "print(1)")
  = (Ok [Scenario.drafted; Scenario.drafted],
     (generate_nodes None 2 (Demo.worker "print(1)")).2) ∧
  Forall (λ x, parent x = None) [Scenario.drafted; Scenario.drafted].
Proof.
  assert (∀ c x c',
            match @None (Node nat string) with
            | None => _draft
            | Some p => if truthy (is_buggy p) then _debug p else _improve p
            end c = (Ok x, c') → parent x = None) as Hdraft.
  { intros c x c' Hrun. simpl in Hrun. unfold Demo.draft in Hrun.
    by injection Hrun as <- _. }
  assert (generate_nodes None 2 (Demo.worker "print(1)")
          = (Ok [Scenario.drafted; Scenario.drafted],
             (generate_nodes None 2 (Demo.worker "print(1)")).2)) as Hrun
    by (vm_compute; reflexivity).
  split; [exact Hdraft |]. split; [exact Hrun |].
  exact (generated_by_strategy (λ x, parent x = None) None 2 _ _ _ Hdraft Hrun).
Defined.

Lemma failed_step_keeps_journal_witness :
  (step Demo.crashing).1 = Raise (Exception "sandbox crashed") ∧
  journal (step Demo.crashing).2 = journal Demo.crashing.
Proof.
  assert ((step Demo.crashing).1 = Raise (Exception "sandbox crashed")) as Hraise
    by (vm_compute; reflexivity).
  split; [exact Hraise |].
  exact (failed_step_keeps_journal _ _ Hraise).
Defined.

Lemma step_of_empty_pool_witness :
  reachable "print(1)" (Demo.config 0 1 "logs") Demo.empty_journal Scenario.no_pool ∧
  cfg_num_workers (Demo.config 0 1 "logs") = 0 ∧
  (step Scenario.no_pool).1 = Raise ZeroDivisionError ∧
  ray_calls (step Scenario.no_pool).2 = ray_calls Scenario.no_pool ∧
  journal (step Scenario.no_pool).2 = journal Scenario.no_pool.
Proof.
  assert (reachable "print(1)" (Demo.config 0 1 "logs") Demo.empty_journal
            Scenario.no_pool) as Hreach by apply reachable_init.
  assert (cfg_num_workers (Demo.config 0 1 "logs") = 0) as Hzero by reflexivity.
  split; [exact Hreach |]. split; [exact Hzero |].
  exact (step_of_empty_pool _ _ _ _ Hreach Hzero).
Defined.

Lemma cleanup_tears_down_every_worker_witness :
  cleanup Demo.healthy = (Ok tt, (cleanup Demo.healthy).2) ∧
  ray_initialized (cleanup Demo.healthy).2 = false ∧
  ray_calls (cleanup Demo.healthy).2
  = ray_calls Demo.healthy ++ teardown_requests (length (workers Demo.healthy)) ∧
  journal (cleanup Demo.healthy).2 = journal Demo.healthy ∧
  logger (cleanup Demo.healthy).2 = logger Demo.healthy ∧
  data_preview (cleanup Demo.healthy).2 = data_preview Demo.healthy.
Proof.
  assert (cleanup Demo.healthy = (Ok tt, (cleanup Demo.healthy).2)) as Hrun
    by (vm_compute; reflexivity).
  split; [exact Hrun |].
  exact (cleanup_tears_down_every_worker _ _ Hrun).
Defined.

Lemma step_after_cleanup_raises_witness :
  cleanup Demo.healthy = (Ok tt, (cleanup Demo.healthy).2) ∧
  workers Demo.healthy ≠ [] ∧
  (step (cleanup Demo.healthy).2).1 = Raise RaySystemError ∧
  journal (step (cleanup Demo.healthy).2).2 = journal Demo.healthy.
Proof.
  assert (cleanup Demo.healthy = (Ok tt, (cleanup Demo.healthy).2)) as Hrun
    by (vm_compute; reflexivity).
  assert (workers Demo.healthy ≠ []) as Hpool by (vm_compute; discriminate).
  split; [exact Hrun |]. split; [exact Hpool |].
  exact (step_after_cleanup_raises _ _ Hrun Hpool).
Defined.

Lemma workers_hold_the_preview_witness :
  reachable "print(1)" (Demo.config 2 2 "logs") Demo.empty_journal (step Demo.healthy).2 ∧
  data_preview (step Demo.healthy).2
  = Some (initial_preview (Demo.config 2 2 "logs")) ∧
  Forall (λ w, w_data_preview w = initial_preview (Demo.config 2 2 "logs"))
    (workers (step Demo.healthy).2).
Proof.
  assert (reachable "print(1)" (Demo.config 2 2 "logs") Demo.empty_journal
            (step Demo.healthy).2) as Hreach
    by apply reachable_step, reachable_init.
  split; [exact Hreach |].
  exact (workers_hold_the_preview _ _ _ _ Hreach).
Defined.

Lemma pool_is_fixed_witness :
  reachable "print(1)" (Demo.config 2 2 "logs") Demo.empty_journal
    (cleanup (step Demo.healthy).2).2 ∧
  cfg (cleanup (step Demo.healthy).2).2 = Demo.config 2 2 "logs" ∧
  length (workers (cleanup (step Demo.healthy).2).2)
  = cfg_num_workers (Demo.config 2 2 "logs") ∧
  num_workers (cleanup (step Demo.healthy).2).2 = cfg_num_workers (Demo.config 2 2 "logs") ∧
  nodes_per_worker (cleanup (step Demo.healthy).2).2
  = cfg_nodes_per_worker (Demo.config 2 2 "logs").
Proof.
  assert (reachable "print(1)" (Demo.config 2 2 "logs") Demo.empty_journal
            (cleanup (step Demo.healthy).2).2) as Hreach
    by apply reachable_cleanup, reachable_step, reachable_init.
  split; [exact Hreach |].
  exact (pool_is_fixed _ _ _ _ Hreach).
Defined.


Lemma run_grows_journal_witness :
  exp_agent Scenario.running
  = ParallelA (ParallelAgent_init "print(1)" (Demo.config 2 1 "logs") Demo.empty_journal) ∧
  reachable "print(1)" (Demo.config 2 1 "logs") Demo.empty_journal
    (ParallelAgent_init "print(1)" (Demo.config 2 1 "logs") Demo.empty_journal) ∧
  Experiment_run 3 Scenario.running
  = (Ok {| solution_code := "print(1)"; valid_metric := 1 |},
     (Experiment_run 3 Scenario.running).2) ∧
  length (nodes (exp_journal (Experiment_run 3 Scenario.running).2))
  = length (nodes (exp_journal Scenario.running))
    + 3 * (cfg_num_workers (Demo.config 2 1 "logs")
           * cfg_nodes_per_worker (Demo.config 2 1 "logs")).
Proof.
  assert (exp_agent Scenario.running
          = ParallelA (ParallelAgent_init "print(1)" (Demo.config 2 1 "logs")
                         Demo.empty_journal)) as Ha by reflexivity.
  assert (reachable "print(1)" (Demo.config 2 1 "logs") Demo.empty_journal
            (ParallelAgent_init "print(1)" (Demo.config 2 1 "logs") Demo.empty_journal))
    as Hreach by apply reachable_init.
  assert (Experiment_run 3 Scenario.running
          = (Ok {| solution_code := "print(1)"; valid_metric := 1 |},
             (Experiment_run 3 Scenario.running).2)) as Hrun
    by (vm_compute; reflexivity).
  split; [exact Ha |]. split; [exact Hreach |]. split; [exact Hrun |].
  exact (run_grows_journal _ _ _ _ _ _ _ _ Ha Hreach Hrun).
Defined.

Lemma run_returns_best_node_witness :
  Experiment_run 1 Scenario.running
  = (Ok {| solution_code := "print(1)"; valid_metric := 1 |},
     (Experiment_run 1 Scenario.running).2) ∧
  ∃ best_node value,
    get_best_node (exp_journal (Experiment_run 1 Scenario.running).2) false
    = Some best_node ∧
    metric best_node = Some value ∧
    {| solution_code := "print(1)"; valid_metric := 1 |}
    = {| solution_code := code best_node; valid_metric := value |}.
Proof.
  assert (Experiment_run 1 Scenario.running
          = (Ok {| solution_code := "print(1)"; valid_metric := 1 |},
             (Experiment_run 1 Scenario.running).2)) as Hrun
    by (vm_compute; reflexivity).
  split; [exact Hrun |].
  exact (run_returns_best_node _ _ _ _ Hrun).
Defined.

Lemma run_stops_at_failed_step_witness :
  exp_agent Scenario.crashing = ParallelA Demo.crashing ∧
  (step Demo.crashing).1 = Raise (Exception "sandbox crashed") ∧
  Experiment_run 3 Scenario.crashing
  = (Raise (Exception "sandbox crashed"),
     set_exp_agent Scenario.crashing (ParallelA (step Demo.crashing).2)).
Proof.
  assert (exp_agent Scenario.crashing = ParallelA Demo.crashing) as Ha by reflexivity.
  assert ((step Demo.crashing).1 = Raise (Exception "sandbox crashed")) as Hraise
    by (vm_compute; reflexivity).
  split; [exact Ha |]. split; [exact Hraise |].
  exact (run_stops_at_failed_step 2 _ _ _ Ha Hraise).
Defined.

Lemma run_raises_persistence_failure_witness :
  exp_agent Scenario.unsaved = ParallelA (Demo.agent "print(1)" 2 1 "") ∧
  (step (Demo.agent "print(1)" 2 1 "")).1 = Ok tt ∧
  save_run (exp_cfg Scenario.unsaved) (journal (step (Demo.agent "print(1)" 2 1 "")).2)
  = Raise (Exception "cannot write") ∧
  Experiment_run 3 Scenario.unsaved
  = (Raise (Exception "cannot write"),
     set_exp_agent Scenario.unsaved
       (ParallelA (step (Demo.agent "print(1)" 2 1 "")).2)).
Proof.
  assert (exp_agent Scenario.unsaved = ParallelA (Demo.agent "print(1)" 2 1 ""))
    as Ha by reflexivity.
  assert ((step (Demo.agent "print(1)" 2 1 "")).1 = Ok tt) as Hstep
    by (vm_compute; reflexivity).
  assert (save_run (exp_cfg Scenario.unsaved)
            (journal (step (Demo.agent "print(1)" 2 1 "")).2)
          = Raise (Exception "cannot write")) as Hsave by (vm_compute; reflexivity).
  split; [exact Ha |]. split; [exact Hstep |]. split; [exact Hsave |].
  exact (run_raises_persistence_failure 2 _ _ _ Ha Hstep Hsave).
Defined.

Lemma experiment_cleanup_order_witness :
  exp_agent Scenario.running
  = ParallelA (ParallelAgent_init "print(1)" (Demo.config 2 1 "logs") Demo.empty_journal) ∧
  (∀ err,
     (interpreter_cleanup_session (exp_interpreter Scenario.running)).1 = Raise err →
     (Experiment_cleanup Scenario.running).1 = Raise err ∧
     exp_agent (Experiment_cleanup Scenario.running).2
     = ParallelA (ParallelAgent_init "print(1)" (Demo.config 2 1 "logs")
                    Demo.empty_journal)) ∧
  ((Experiment_cleanup Scenario.running).1 = Ok tt →
   ∃ a', exp_agent (Experiment_cleanup Scenario.running).2 = ParallelA a' ∧
         ray_initialized a' = false ∧
         journal a'
         = journal (ParallelAgent_init "print(1)" (Demo.config 2 1 "logs")
                      Demo.empty_journal)).
Proof.
  assert (exp_agent Scenario.running
          = ParallelA (ParallelAgent_init "print(1)" (Demo.config 2 1 "logs")
                         Demo.empty_journal)) as Ha by reflexivity.
  split; [exact Ha |].
  exact (experiment_cleanup_order _ _ Ha).
Defined.

End MoreExamples.

Section StalledExample.
#[local] Existing Instance Stalled.collaborators.

Lemma failed_proposal_submits_no_evaluation_witness :
  start_step Stalled.agent = (Ok 0, (start_step Stalled.agent).2) ∧
  propose 0 (start_step Stalled.agent).2
  = (Raise (Exception "no proposal"), (propose 0 (start_step Stalled.agent).2).2) ∧
  step Stalled.agent
  = (Raise (Exception "no proposal"), (propose 0 (start_step Stalled.agent).2).2) ∧
  ∃ added,
    ray_calls (propose 0 (start_step Stalled.agent).2).2
    = ray_calls Stalled.agent ++ added ∧
    Forall (λ call, call.2 ≠ Call_execute_and_evaluate_node) added.
Proof.
  assert (start_step Stalled.agent = (Ok 0, (start_step Stalled.agent).2)) as Hstart
    by (vm_compute; reflexivity).
  assert (propose 0 (start_step Stalled.agent).2
          = (Raise (Exception "no proposal"),
             (propose 0 (start_step Stalled.agent).2).2)) as Hpropose
    by (vm_compute; reflexivity).
  split; [exact Hstart |]. split; [exact Hpropose |].
  exact (failed_proposal_submits_no_evaluation _ _ _ _ _ Hstart Hpropose).
Defined.

End StalledExample.

(** * The two phases, call by call *)

Section Sweeps.
Context `{Collaborators}.
Implicit Types (s : ParallelAgent) (w : ParallelWorker).

Lemma swept_swept s ws1 c1 l1 ws2 c2 l2 :
  swept (swept s ws1 c1 l1) ws2 c2 l2 = swept s ws2 (c1 ++ c2) (l1 ++ l2).
Proof. unfold swept. simpl. by rewrite !app_assoc. Qed.

Lemma swept_same s : swept s (workers s) [] [] = s.
Proof. destruct s. unfold swept. simpl. by rewrite !app_nil_r. Qed.

Lemma add_log_swept s r : add_log s r = swept s (workers s) [] [r].
Proof. unfold add_log, swept. by rewrite app_nil_r. Qed.

(** A remote call on a running runtime runs the task on the actor. *)
Lemma remote_run {A} i m (task : M ParallelWorker A) s w :
  ray_initialized s = true → workers s !! i = Some w →
  remote i m task s
  = (Ok (task w).1, swept s (<[i := (task w).2]> (workers s)) [(i, m)] []).
Proof.
  intros Hup Hw. unfold remote. rewrite Hup, Hw.
  destruct (task w) as [r w']. simpl. f_equal.
  unfold ran_task, swept. by rewrite app_nil_r.
Qed.

(** A comprehension of remote calls to one actor runs the tasks on it one
    after the other. *)
Lemma map_M_remote_run {A B} i m (task : A → M ParallelWorker B) xs : ∀ s w,
  ray_initialized s = true → workers s !! i = Some w →
  map_M (λ x, remote i m (task x)) xs s
  = (Ok (run_tasks task xs w).1,
     swept s (<[i := (run_tasks task xs w).2]> (workers s))
       (replicate (length xs) (i, m)) []).
Proof.
  induction xs as [| x xs IH]; intros s w Hup Hw; simpl.
  - by rewrite (list_insert_id _ _ _ Hw), swept_same.
  - erewrite bind_run by by apply remote_run.
    destruct (task x w) as [r w1] eqn:Hx. simpl.
    assert (i < length (workers s)) as Hi by by eapply lookup_lt_Some.
    erewrite bind_run.
    2:{ apply (IH _ w1); [done |]. simpl. by apply list_lookup_insert_eq. }
    destruct (run_tasks task xs w1) as [rs w2]. simpl.
    by rewrite swept_swept, list_insert_insert_eq.
Qed.

(** A comprehension over the pool, each of whose calls works on the actor at
    its index, works on every actor in turn. *)
Lemma sweep {X} (body : nat → M ParallelAgent X)
    (out : nat → ParallelWorker → X)
    (upd : nat → ParallelWorker → ParallelWorker)
    (calls : nat → ParallelWorker → list (nat * method))
    (logs : nat → ParallelWorker → list log_record) :
  (∀ i s w, ray_initialized s = true → workers s !! i = Some w →
     body i s = (Ok (out i w),
                 swept s (<[i := upd i w]> (workers s)) (calls i w) (logs i w))) →
  ∀ todo pre a s,
    a = length pre →
    ray_initialized s = true → workers s = pre ++ todo →
    map_M body (seq a (length todo)) s
    = (Ok (imap (λ j, out (a + j)) todo),
       swept s (pre ++ imap (λ j, upd (a + j)) todo)
         (concat (imap (λ j, calls (a + j)) todo))
         (concat (imap (λ j, logs (a + j)) todo))).
Proof.
  intros Hbody. induction todo as [| w todo IH]; intros pre a s -> Hup Hws; simpl.
  - by rewrite <- Hws, swept_same.
  - assert (workers s !! length pre = Some w) as Hw.
    { rewrite Hws. by apply list_lookup_middle. }
    erewrite bind_run by by apply Hbody.
    assert (<[length pre := upd (length pre) w]> (workers s)
            = (pre ++ [upd (length pre) w]) ++ todo) as Hins.
    { rewrite Hws, insert_app_r_alt, Nat.sub_diag by done.
      simpl. by rewrite <- app_assoc. }
    erewrite bind_run.
    2:{ apply (IH (pre ++ [upd (length pre) w])); [| done | exact Hins].
        rewrite length_app. simpl. lia. }
    unfold mret, M_ret, ret. rewrite swept_swept.
    rewrite !Nat.add_0_r. f_equal.
    + f_equal. f_equal. apply imap_ext. intros j x _. simpl. f_equal. lia.
    + f_equal.
      * rewrite <- app_assoc. simpl. f_equal. f_equal.
        apply imap_ext. intros j x _. simpl. f_equal. lia.
      * simpl. f_equal. f_equal. apply imap_ext. intros j x _. simpl. f_equal. lia.
      * simpl. f_equal. f_equal. apply imap_ext. intros j x _. simpl. f_equal. lia.
Qed.

(** Indexed maps over the pool, written over the slices. *)
Lemma imap_zip_with_seq {A B C} (F : B → A → C) (f : nat → B) (l : list A) : ∀ a,
  imap (λ i x, F (f (a + i)) x) l
  = zip_with (λ x y, F y x) l (f <$> seq a (length l)).
Proof.
  induction l as [| x l IH]; intros a; [done |].
  rewrite imap_cons.
  change (zip_with (λ x y, F y x) (x :: l) (f <$> seq a (length (x :: l))))
    with (F (f a) x :: zip_with (λ x y, F y x) l (f <$> seq (S a) (length l))).
  rewrite Nat.add_0_r. f_equal.
  rewrite <- (IH (S a)). apply imap_ext. intros i y _. simpl.
  by replace (a + S i) with (S (a + i)) by lia.
Qed.

Lemma imap_over_seq {A B C} (G : nat → B → C) (f : nat → B) (l : list A) : ∀ a,
  imap (λ i _, G (a + i) (f (a + i))) l
  = imap (λ i y, G (a + i) y) (f <$> seq a (length l)).
Proof.
  induction l as [| x l IH]; intros a; [done |].
  change (f <$> seq a (length (x :: l))) with (f a :: (f <$> seq (S a) (length l))).
  rewrite !imap_cons, Nat.add_0_r. f_equal.
  etrans; [| etrans; [exact (IH (S a)) |]].
  - apply imap_ext. intros i y _. simpl. by replace (a + S i) with (S (a + i)) by lia.
  - apply imap_ext. intros i y _. simpl. by replace (a + S i) with (S (a + i)) by lia.
Qed.

(** *** The propose phase *)

(** On a running runtime the propose phase asks every worker, in pool order,
    for its nodes; when it returns, the pending sequence is the workers'
    responses, one after the other. *)
Lemma propose_run n s all_nodes s1 :
  ray_initialized s = true →
  propose n s = (Ok all_nodes, s1) →
  ∃ responses,
    Ok <$> responses
    = (λ w, (search_and_generate (nodes_per_worker s) w).1) <$> workers s ∧
    all_nodes = concat responses ∧
    workers s1 = (λ w, (search_and_generate (nodes_per_worker s) w).2) <$> workers s ∧
    ray_initialized s1 = true ∧
    nodes_per_worker s1 = nodes_per_worker s.
Proof.
  intros Hup Hrun. unfold propose in Hrun.
  apply bind_ok in Hrun as (k & s0 & [= <- <-] & Hrun).
  apply bind_ok in Hrun as (pool & s0 & [= <- <-] & Hrun).
  apply bind_ok in Hrun as (node_futures & sa & Hmap & Hrun).
  rewrite (sweep (λ i, remote i Call_search_and_generate
                         (search_and_generate (nodes_per_worker s)))
             (λ _ w, (search_and_generate (nodes_per_worker s) w).1)
             (λ _ w, (search_and_generate (nodes_per_worker s) w).2)
             (λ i _, [(i, Call_search_and_generate)])
             (λ _ _, [])
             (λ i x w Hx Hw, remote_run i _ _ x w Hx Hw)
             (workers s) [] 0 s eq_refl Hup eq_refl) in Hmap.
  injection Hmap as <- <-.
  apply bind_ok in Hrun as ([] & sb & [= <-] & Hrun).
  apply bind_ok in Hrun as (generated & sc & Hget & Hrun).
  apply bind_ok in Hrun as ([] & sd & [= <-] & [= <- <-]).
  unfold lift_result in Hget. injection Hget as Hget <-.
  apply ray_get_ok in Hget.
  exists generated. split; [| split; [done |]].
  - rewrite <- Hget. apply (imap_const (λ w, (search_and_generate _ w).1)).
  - split; [| done]. simpl.
    apply (imap_const (λ w, (search_and_generate (nodes_per_worker s) w).2)).
Qed.

(** *** The evaluate phase *)

Lemma assign_run n (all_nodes : list (Node Scalar ExecutionResult)) pool npe acc i s :
  assign n all_nodes pool npe acc i s
  = (fs ← submit_slice n all_nodes pool npe i; mret (acc ++ fs)) s.
Proof.
  unfold assign, submit_slice, mbind, M_bind, bind, log, modify.
  cbv beta iota zeta.
  match goal with
  | |- context [map_M ?f ?xs ?st] => destruct (map_M f xs st) as [[fs | e] s1]
  end; done.
Qed.

Lemma fold_assign n (all_nodes : list (Node Scalar ExecutionResult)) pool npe l :
  ∀ acc s,
  fold_M (assign n all_nodes pool npe) acc l s
  = (outs ← map_M (submit_slice n all_nodes pool npe) l;
     mret (acc ++ concat outs)) s.
Proof.
  induction l as [| i l IH]; intros acc s; cbn [fold_M map_M].
  - unfold mbind, M_bind, bind, mret, M_ret, ret. by rewrite app_nil_r.
  - pose proof (assign_run n all_nodes pool npe acc i s) as Hassign.
    destruct (submit_slice n all_nodes pool npe i s) as [[fs | e] s1] eqn:Hslice.
    + erewrite bind_run in Hassign by exact Hslice.
      erewrite bind_run by exact Hassign. rewrite IH.
      destruct (map_M (submit_slice n all_nodes pool npe) l s1)
        as [[outs | e] s2] eqn:Hrest.
      * erewrite bind_run by exact Hrest.
        erewrite bind_run.
        2:{ erewrite bind_run by exact Hslice.
            erewrite bind_run by exact Hrest. reflexivity. }
        unfold mret, M_ret, ret. simpl. by rewrite app_assoc.
      * erewrite bind_raise by exact Hrest.
        erewrite bind_raise; [done |].
        erewrite bind_run by exact Hslice. by erewrite bind_raise by exact Hrest.
    + erewrite bind_raise in Hassign by exact Hslice.
      erewrite bind_raise by exact Hassign.
      erewrite bind_raise; [done |]. by erewrite bind_raise by exact Hslice.
Qed.

(** On a running runtime with a pool that is not empty, the evaluate phase
    submits to worker [i], in pool order, the nodes of slice [i], which the
    worker evaluates one after the other. *)
Lemma dispatch_run n (all_nodes : list (Node Scalar ExecutionResult)) s :
  ray_initialized s = true → 0 < length (workers s) →
  dispatch n all_nodes s
  = (Ok (concat
           (imap (λ i w,
                    (run_tasks execute_and_evaluate_node
                       (worker_slice all_nodes (length (workers s))
                          (max 1 (length all_nodes / length (workers s))) i) w).1)
              (workers s))),
     swept s
       (imap (λ i w,
                (run_tasks execute_and_evaluate_node
                   (worker_slice all_nodes (length (workers s))
                      (max 1 (length all_nodes / length (workers s))) i) w).2)
          (workers s))
       (concat
          (imap (λ i _,
                   replicate
                     (length (worker_slice all_nodes (length (workers s))
                                (max 1 (length all_nodes / length (workers s))) i))
                     (i, Call_execute_and_evaluate_node))
             (workers s)))
       ((INFO, Distributing n (length all_nodes) (length (workers s)))
        :: concat
             (imap (λ i _,
                      [(INFO, WorkerAssigned n i
                                (length (worker_slice all_nodes (length (workers s))
                                           (max 1 (length all_nodes
                                                   / length (workers s))) i)))])
                (workers s)))).
Proof.
  intros Hup Hpool. unfold dispatch.
  erewrite bind_run by reflexivity.
  erewrite bind_run
    by (unfold lift_result; by rewrite nodes_per_executor_pos).
  erewrite bind_run by reflexivity.
  rewrite fold_assign.
  set (pool := length (workers s)).
  set (npe := max 1 (length all_nodes / pool)).
  erewrite bind_run.
  2:{ apply (sweep (submit_slice n all_nodes pool npe)
               (λ i w, (run_tasks execute_and_evaluate_node
                          (worker_slice all_nodes pool npe i) w).1)
               (λ i w, (run_tasks execute_and_evaluate_node
                          (worker_slice all_nodes pool npe i) w).2)
               (λ i _, replicate (length (worker_slice all_nodes pool npe i))
                         (i, Call_execute_and_evaluate_node))
               (λ i _, [(INFO, WorkerAssigned n i
                                 (length (worker_slice all_nodes pool npe i)))])
             ) with (pre := []) (todo := workers s); [| done | done | done].
      intros i x w Hx Hw. unfold submit_slice.
      erewrite bind_run by reflexivity.
      rewrite (map_M_remote_run i _ _ _ _ w) by done.
      f_equal. by rewrite add_log_swept, swept_swept. }
  unfold mret, M_ret, ret. simpl. f_equal.
  by rewrite add_log_swept, swept_swept.
Qed.

(** The slices that the evaluate phase takes, and where it sends them. *)
Lemma dispatch_slices n (all_nodes : list (Node Scalar ExecutionResult)) s :
  ray_initialized s = true → 0 < length (workers s) →
  ∃ slices,
    partition all_nodes (length (workers s)) = Ok slices ∧
    length slices = length (workers s) ∧
    concat slices = all_nodes ∧
    (dispatch n all_nodes s).1
    = Ok (concat (zip_with (λ w sl, (run_tasks execute_and_evaluate_node sl w).1)
                    (workers s) slices)) ∧
    workers (dispatch n all_nodes s).2
    = zip_with (λ w sl, (run_tasks execute_and_evaluate_node sl w).2)
        (workers s) slices ∧
    ray_calls (dispatch n all_nodes s).2
    = ray_calls s
      ++ concat (imap (λ i sl, replicate (length sl) (i, Call_execute_and_evaluate_node))
                   slices) ∧
    ray_initialized (dispatch n all_nodes s).2 = true.
Proof.
  intros Hup Hpool.
  set (pool := length (workers s)).
  set (npe := max 1 (length all_nodes / pool)).
  exists (worker_slice all_nodes pool npe <$> seq 0 pool).
  split; [by apply partition_ok |].
  split; [by rewrite length_fmap, length_seq |].
  split; [by apply concat_slices |].
  rewrite dispatch_run by done. simpl. fold pool npe.
  split; [| split; [| split; [| done]]].
  - do 2 f_equal.
    apply (imap_zip_with_seq
             (λ sl w, (run_tasks execute_and_evaluate_node sl w).1)
             (worker_slice all_nodes pool npe) (workers s) 0).
  - apply (imap_zip_with_seq
             (λ sl w, (run_tasks execute_and_evaluate_node sl w).2)
             (worker_slice all_nodes pool npe) (workers s) 0).
  - do 2 f_equal.
    apply (imap_over_seq
             (λ i (sl : list (Node Scalar ExecutionResult)),
                replicate (length sl) (i, Call_execute_and_evaluate_node))
             (worker_slice all_nodes pool npe) (workers s) 0).
Qed.

(** The sizes of the slices of a list whose length is a multiple of the
    size of the pool. *)
Lemma floor_sized_multiple {A} (l : list A) pool k slices :
  0 < pool → length l = pool * k →
  partition l pool = Ok slices →
  floor_sized l pool slices ∧ Forall (λ sl, length sl = k) slices.
Proof.
  intros Hpool Hlen Hpart.
  assert (length l / pool = k) as Hq.
  { rewrite Hlen, Nat.mul_comm. apply Nat.div_mul. lia. }
  assert (length l `mod` pool = 0) as Hr.
  { rewrite Hlen, Nat.mul_comm. apply Nat.Div0.mod_mul. }
  assert (∀ i sl, slices !! i = Some sl → length sl = k) as Hsize.
  { intros i sl Hsl.
    destruct (partition_lookup l pool slices i sl Hpool Hpart Hsl) as [Hi ->].
    destruct (decide (pool ≤ length l)) as [Hle | Hlt].
    - rewrite slice_length_enough by done. case_decide; lia.
    - rewrite slice_length_few by lia. case_decide; nia. }
  split.
  - intros i sl Hsl. rewrite (Hsize i sl Hsl), Hq, Hr. case_decide; lia.
  - apply Forall_lookup. exact Hsize.
Qed.

Lemma propose_keeps_pool n s :
  length (workers (propose n s).2) = length (workers s).
Proof.
  apply (maintains_propose (λ x, length (workers x) = length (workers s))
           (λ _, True)); try done.
  intros x i m w _ <-. cbn. by rewrite length_insert.
Qed.

(** What a step passes from the first phase to the second: as many nodes as
    the pool has workers, times the number of nodes per worker. *)
Lemma pending_length n0 s0 all_nodes s :
  propose n0 s0 = (Ok all_nodes, s) →
  length all_nodes = length (workers s) * nodes_per_worker s0.
Proof.
  intros Hrun. pose proof (propose_keeps_pool n0 s0) as Hkeep.
  rewrite Hrun in Hkeep. simpl in Hkeep. rewrite Hkeep.
  by eapply propose_length.
Qed.

(** C1: on a running runtime with at least one worker, the partition step
    splits the pending sequence into exactly as many slices as there are
    workers; the slices are contiguous, one continuing where the one before
    ends; the nodes of slice [i] are submitted to worker [i], which evaluates
    them in order.  For every pending sequence that the propose phase passes
    on, and for every sequence of at least as many nodes as workers, every
    slice but the last has the floor of N/P nodes and the last has the
    remainder too; 10 nodes over 3 workers are split 3, 3, 4, and the
    evaluations are submitted to the workers 0, 1 and 2 in these numbers. *)
Theorem partition_step_slices n (all_nodes : list (Node Scalar ExecutionResult)) s :
  ray_initialized s = true →
  0 < length (workers s) →
  ∃ slices,
    partition all_nodes (length (workers s)) = Ok slices ∧
    length slices = length (workers s) ∧
    concat slices = all_nodes ∧
    (dispatch n all_nodes s).1
    = Ok (concat (zip_with (λ w sl, (run_tasks execute_and_evaluate_node sl w).1)
                    (workers s) slices)) ∧
    ray_calls (dispatch n all_nodes s).2
    = ray_calls s
      ++ concat (imap (λ i sl, replicate (length sl) (i, Call_execute_and_evaluate_node))
                   slices) ∧
    (length (workers s) ≤ length all_nodes ∨
     (∃ n0 s0, propose n0 s0 = (Ok all_nodes, s)) →
     floor_sized all_nodes (length (workers s)) slices) ∧
    (length (workers s) = 3 → length all_nodes = 10 →
     length <$> slices = [3; 3; 4] ∧
     ray_calls (dispatch n all_nodes s).2
     = ray_calls s
       ++ replicate 3 (0, Call_execute_and_evaluate_node)
       ++ replicate 3 (1, Call_execute_and_evaluate_node)
       ++ replicate 4 (2, Call_execute_and_evaluate_node)).
Proof.
  intros Hup Hpool.
  destruct (dispatch_slices n all_nodes s Hup Hpool)
    as (slices & Hpart & Hlen & Hcat & Hfut & _ & Hcalls & _).
  exists slices. repeat (split; [done |]). split.
  - intros [Hle | (n0 & s0 & Hrun)].
    + intros i sl Hsl.
      destruct (partition_lookup all_nodes _ slices i sl Hpool Hpart Hsl) as [Hi ->].
      by apply slice_length_enough.
    + by apply (floor_sized_multiple all_nodes _ (nodes_per_worker s0) slices Hpool
                  (pending_length _ _ _ _ Hrun)).
  - intros H3 H10. rewrite Hcalls. clear Hcalls Hfut. rewrite H3 in Hpart.
    rewrite partition_ok in Hpart by lia. injection Hpart as <-.
    simpl. rewrite !(slice_length_enough all_nodes 3) by lia.
    rewrite H10, !app_nil_r. split; reflexivity.
Qed.

(** C3: for the nodes that the workers of a pool with at least one worker
    have generated in a step, the sizes of the slices of the partition are at
    most 1 apart: every slice has as many nodes as a worker generates. *)
Theorem partition_step_balanced n0 s0 (all_nodes : list (Node Scalar ExecutionResult)) s :
  propose n0 s0 = (Ok all_nodes, s) →
  0 < length (workers s) →
  ∃ slices,
    partition all_nodes (length (workers s)) = Ok slices ∧
    length slices = length (workers s) ∧
    sizes_within 1 slices ∧
    Forall (λ sl, length sl = nodes_per_worker s0) slices.
Proof.
  intros Hrun Hpool.
  exists (worker_slice all_nodes (length (workers s))
            (max 1 (length all_nodes / length (workers s)))
          <$> seq 0 (length (workers s))).
  assert (partition all_nodes (length (workers s))
          = Ok (worker_slice all_nodes (length (workers s))
                  (max 1 (length all_nodes / length (workers s)))
                <$> seq 0 (length (workers s)))) as Hpart by by apply partition_ok.
  destruct (floor_sized_multiple all_nodes _ (nodes_per_worker s0) _ Hpool
              (pending_length _ _ _ _ Hrun) Hpart) as [_ Hall].
  split; [done |]. split; [by rewrite length_fmap, length_seq |].
  split; [| done].
  intros i j a b Ha Hb.
  rewrite (proj1 (Forall_lookup _ _) Hall i a Ha).
  rewrite (proj1 (Forall_lookup _ _) Hall j b Hb). lia.
Qed.

(** *** A whole step *)

(** The propose phase returns only on a running runtime, when there is a
    worker to ask. *)
Lemma propose_ray_up n s all_nodes s1 :
  propose n s = (Ok all_nodes, s1) → workers s ≠ [] → ray_initialized s = true.
Proof.
  intros Hrun Hw. destruct (ray_initialized s) eqn:Hup; [done |]. exfalso.
  destruct s as [c0 j0 dp nw k lg ws up calls]. simpl in *. subst up.
  destruct ws as [| w ws]; [done |].
  revert Hrun. unfold propose, remote, mbind, M_bind, bind. by cbn.
Qed.

(** With the attribute set, the start of a step only logs. *)
Lemma start_step_cached s v :
  data_preview s = Some v →
  ∃ logs,
    start_step s = (Ok (length (nodes (journal s))), swept s (workers s) [] logs).
Proof.
  intros Hv. unfold start_step.
  destruct (nodes (journal s)) as [| x xs] eqn:Hnodes.
  - exists [(INFO, StartingStep 0); (INFO, UpdatedDataPreview)].
    unfold mbind, M_bind, bind, log, modify, gets. cbn. rewrite Hnodes. cbn.
    rewrite (update_data_preview_set _ v) by done. cbn.
    unfold add_log, swept. simpl. by rewrite <- !app_assoc, app_nil_r.
  - exists [(INFO, StartingStep (S (length xs)))].
    unfold mbind, M_bind, bind, log, modify, gets. cbn. rewrite Hnodes. cbn.
    unfold add_log, swept. simpl. by rewrite app_nil_r.
Qed.

(** What [execute_and_evaluate_node] returns is the node it was given, after
    the sandbox has run its code and the metric derivation has classified the
    artifact. *)
Lemma execute_returns_evaluated g :
  returns (execute_and_evaluate_node g) (evaluated_from g).
Proof.
  intros w e w' Hrun.
  unfold execute_and_evaluate_node, try_except, parse_exec_result in Hrun.
  unfold mbind, M_bind, bind, gets, w_log, modify, mret, M_ret, ret, raise in Hrun.
  cbn in Hrun. rewrite lift_core_run in Hrun. cbn in Hrun.
  destruct (interpreter_run (code g) true (core w)) as [[r | err] c1] eqn:Hsandbox;
    cbn in Hrun; [| done].
  rewrite lift_core_run in Hrun. cbn in Hrun.
  destruct (classify (absorb_exec_result g r) r c1) as [[v | err] c2] eqn:Hmetric;
    cbn in Hrun; [| done].
  injection Hrun as <- _.
  by exists (core w), r, c1, v, c2.
Qed.

Lemma run_tasks_returns {A B} (task : A → M ParallelWorker B) (R : A → B → Prop) :
  (∀ x, returns (task x) (R x)) →
  ∀ xs w, Forall2 (λ x future, ∀ b, future = Ok b → R x b) xs (run_tasks task xs w).1.
Proof.
  intros Htask xs. induction xs as [| x xs IH]; intros w; simpl; [constructor |].
  destruct (task x w) as [r w1] eqn:Hx.
  specialize (IH w1). destruct (run_tasks task xs w1) as [rs w2]. simpl in *.
  constructor; [| done]. intros b ->. by eapply Htask.
Qed.

Lemma Forall2_concat_zip_with {X Y W} (R : X → Y → Prop) (F : W → list X → list Y) :
  (∀ a l, Forall2 R l (F a l)) →
  ∀ xs ls, length xs = length ls →
    Forall2 R (concat ls) (concat (zip_with F xs ls)).
Proof.
  intros HF xs. induction xs as [| a xs IH]; intros [| l ls] Hlen; simpl in *;
    try done.
  apply Forall2_app; [apply HF | apply IH; lia].
Qed.

(** The responses of the workers have [nodes_per_worker] nodes each. *)
Lemma responses_length k (ws : list ParallelWorker)
    (responses : list (list (Node Scalar ExecutionResult))) :
  Ok <$> responses = (λ w, (search_and_generate k w).1) <$> ws →
  length responses = length ws ∧ Forall (λ l, length l = k) responses.
Proof.
  intros Heq. split.
  - by rewrite <- (length_fmap Ok responses), Heq, length_fmap.
  - apply Forall_lookup. intros i l Hl.
    assert ((Ok <$> responses) !! i = Some (Ok l)) as Hi
      by by rewrite list_lookup_fmap, Hl.
    rewrite Heq, list_lookup_fmap in Hi.
    destruct (ws !! i) as [w |]; [| done]. simpl in Hi. injection Hi as Hi.
    destruct (search_and_generate k w) as [r w'] eqn:Hw. simpl in Hi. subst r.
    by eapply search_and_generate_length.
Qed.

(** A step from start to the submission of the evaluations, on a scheduler
    that has its data preview: every worker is asked for its nodes, and the
    nodes that worker [i] has returned are submitted to worker [i], in
    order. *)
Lemma submitted_run s v n futures s1 :
  data_preview s = Some v →
  submitted s = (Ok (n, futures), s1) →
  ∃ responses,
    Ok <$> responses
    = (λ w, (search_and_generate (nodes_per_worker s) w).1) <$> workers s ∧
    length responses = length (workers s) ∧
    Forall (λ l, length l = nodes_per_worker s) responses ∧
    futures
    = concat (zip_with (λ w l, (run_tasks execute_and_evaluate_node l w).1)
                ((λ w, (search_and_generate (nodes_per_worker s) w).2) <$> workers s)
                responses) ∧
    Forall2 (λ g future, ∀ e, future = Ok e → evaluated_from g e)
      (concat responses) futures.
Proof.
  intros Hv Hsub. unfold submitted in Hsub.
  apply bind_ok in Hsub as (n0 & sa & Hstart & Hsub).
  apply bind_ok in Hsub as (all_nodes & sb & Hpropose & Hsub).
  apply bind_ok in Hsub as (fs & sc & Hdispatch & [= _ <- _]).
  destruct (start_step_cached s v Hv) as [logs Hcached].
  rewrite Hcached in Hstart. injection Hstart as _ <-.
  assert (0 < length (workers sb)) as Hpool.
  { unfold dispatch in Hdispatch.
    apply bind_ok in Hdispatch as (pool & sx & [= <- <-] & Hdispatch).
    apply bind_ok in Hdispatch as (npe & sx & Hnpe & _).
    unfold lift_result in Hnpe. injection Hnpe as Hnpe _.
    unfold nodes_per_executor, floordiv in Hnpe. case_decide; [done | lia]. }
  assert (length (workers sb) = length (workers s)) as Hkeep.
  { pose proof (propose_keeps_pool n0 (swept s (workers s) [] logs)) as Hk.
    by rewrite Hpropose in Hk. }
  assert (ray_initialized (swept s (workers s) [] logs) = true) as Hup.
  { apply (propose_ray_up _ _ _ _ Hpropose). simpl.
    intros Hnil. rewrite Hnil in Hkeep. simpl in Hkeep. lia. }
  destruct (propose_run _ _ _ _ Hup Hpropose)
    as (responses & Hresp & -> & Hws & Hup' & _).
  simpl in Hresp, Hws.
  destruct (responses_length _ _ _ Hresp) as [Hlen Hall].
  destruct (dispatch_slices n0 (concat responses) sb Hup' Hpool)
    as (slices & Hpart & _ & _ & Hfut & _).
  assert (slices = responses) as ->.
  { rewrite Hkeep, <- Hlen in Hpart.
    rewrite (partition_responses responses (nodes_per_worker s)) in Hpart;
      [by injection Hpart | lia | done]. }
  rewrite Hdispatch, Hws in Hfut. simpl in Hfut. injection Hfut as ->.
  exists responses. repeat (split; [done |]).
  apply Forall2_concat_zip_with.
  - intros w l. apply run_tasks_returns, execute_returns_evaluated.
  - by rewrite length_fmap.
Qed.

(** C10: a step of a scheduler that returns has asked every worker of the
    pool for its nodes, has had worker [i] evaluate the nodes that worker [i]
    returned, and has appended to the journal, in pool order, the nodes that
    these evaluations returned: each of them is a generated node after the
    sandbox has run its code and the metric derivation has classified the
    artifact; they are as many as the configured number of workers times the
    configured number of nodes per worker. *)
Theorem step_appends_all_generated task c j s s' :
  reachable task c j s →
  step s = (Ok tt, s') →
  ∃ responses evaluated,
    Ok <$> responses
    = (λ w, (search_and_generate (nodes_per_worker s) w).1) <$> workers s ∧
    length responses = num_workers s ∧
    Forall (λ l, length l = nodes_per_worker s) responses ∧
    Ok <$> evaluated
    = concat (zip_with (λ w l, (run_tasks execute_and_evaluate_node l w).1)
                ((λ w, (search_and_generate (nodes_per_worker s) w).2) <$> workers s)
                responses) ∧
    Forall2 evaluated_from (concat responses) evaluated ∧
    nodes (journal s') = nodes (journal s) ++ evaluated ∧
    length (nodes (journal s'))
    = length (nodes (journal s)) + num_workers s * nodes_per_worker s.
Proof.
  intros Hreach Hstep.
  pose proof (reachable_shaped _ _ _ _ Hreach) as (Hpool & Hnum & _).
  pose proof (reachable_preview _ _ _ _ Hreach) as [Hv _].
  destruct (step_outcome s) as
    [(e' & s1 & _ & Hraise) |
     [(n & fs & s1 & e' & _ & _ & Hraise) |
      (n & fs & s1 & ev & s2 & Hsub & Hget & _ & Hjs & Hn & _)]];
    [congruence | congruence |].
  rewrite Hstep in Hjs. simpl in Hjs.
  pose proof (submitted_journal s) as Hj. rewrite Hsub in Hj. simpl in Hj.
  destruct (submitted_run s _ n fs s1 Hv Hsub)
    as (responses & Hresp & Hlen & Hall & Hfs & Hev).
  apply ray_get_ok in Hget.
  exists responses, ev.
  split; [done |]. split; [by rewrite Hlen, Hpool, Hnum |]. split; [done |].
  split; [by rewrite <- Hget, Hfs |].
  assert (Forall2 evaluated_from (concat responses) ev) as Hfrom.
  { rewrite Hget in Hev. apply Forall2_fmap_r in Hev.
    eapply Forall2_impl; [exact Hev |]. intros g e He. by apply He. }
  split; [done |].
  assert (nodes (journal s') = nodes (journal s) ++ ev) as Hnodes
    by by rewrite Hjs, Hn, Hj.
  split; [done |].
  rewrite Hnodes, length_app. f_equal.
  rewrite <- (Forall2_length _ _ _ Hfrom).
  rewrite (length_concat_uniform responses (nodes_per_worker s)) by done.
  by rewrite Hlen, Hpool, Hnum.
Qed.

(** X15: in a step, the pending sequence that the first barrier passes on is
    the workers' responses in pool order: response [i] is what
    [search_and_generate] has returned on worker [i], and has
    [nodes_per_worker] nodes.  The partition gives these responses back as
    the slices, so the evaluate phase submits to worker [i] the nodes that
    worker [i] has generated, and to no other worker: the futures are those
    of worker [i] evaluating its own nodes in order, for [i] in pool order;
    the calls submitted are one [execute_and_evaluate_node] on worker [i] per
    node of response [i]. *)
Theorem step_assigns_evenly n s all_nodes s1 :
  propose n s = (Ok all_nodes, s1) →
  0 < length (workers s) →
  ∃ responses,
    Ok <$> responses
    = (λ w, (search_and_generate (nodes_per_worker s) w).1) <$> workers s ∧
    all_nodes = concat responses ∧
    length responses = length (workers s1) ∧
    Forall (λ l, length l = nodes_per_worker s) responses ∧
    partition all_nodes (length (workers s1)) = Ok responses ∧
    (dispatch n all_nodes s1).1
    = Ok (concat (zip_with (λ w l, (run_tasks execute_and_evaluate_node l w).1)
                    (workers s1) responses)) ∧
    workers (dispatch n all_nodes s1).2
    = zip_with (λ w l, (run_tasks execute_and_evaluate_node l w).2)
        (workers s1) responses ∧
    ray_calls (dispatch n all_nodes s1).2
    = ray_calls s1
      ++ concat (imap (λ i l, replicate (length l) (i, Call_execute_and_evaluate_node))
                   responses).
Proof.
  intros Hrun Hpool.
  assert (ray_initialized s = true) as Hup.
  { apply (propose_ray_up _ _ _ _ Hrun). intros Hnil. rewrite Hnil in Hpool.
    simpl in Hpool. lia. }
  assert (length (workers s1) = length (workers s)) as Hkeep.
  { pose proof (propose_keeps_pool n s) as Hk. by rewrite Hrun in Hk. }
  destruct (propose_run _ _ _ _ Hup Hrun) as (responses & Hresp & -> & _ & Hup' & _).
  destruct (responses_length _ _ _ Hresp) as [Hlen Hall].
  assert (0 < length (workers s1)) as Hpool' by lia.
  destruct (dispatch_slices n (concat responses) s1 Hup' Hpool')
    as (slices & Hpart & _ & _ & Hfut & Hws & Hcalls & _).
  assert (partition (concat responses) (length (workers s1)) = Ok responses) as Hresps.
  { rewrite Hkeep, <- Hlen.
    apply (partition_responses responses (nodes_per_worker s)); [lia | done]. }
  assert (slices = responses) as -> by congruence.
  exists responses. split; [done |]. split; [done |].
  split; [by rewrite Hkeep |]. done.
Qed.

End Sweeps.

(** ** The two phases on the small instance *)

Section SweepExamples.
#[local] Existing Instance Demo.collaborators.

Lemma partition_step_slices_witness :
  ray_initialized Scenario.proposed = true ∧
  0 < length (workers Scenario.proposed) ∧
  ∃ slices,
    partition Scenario.pending (length (workers Scenario.proposed)) = Ok slices ∧
    length slices = length (workers Scenario.proposed) ∧
    concat slices = Scenario.pending ∧
    (dispatch 0 Scenario.pending Scenario.proposed).1
    = Ok (concat (zip_with (λ w sl, (run_tasks execute_and_evaluate_node sl w).1)
                    (workers Scenario.proposed) slices)) ∧
    ray_calls (dispatch 0 Scenario.pending Scenario.proposed).2
    = ray_calls Scenario.proposed
      ++ concat (imap (λ i sl, replicate (length sl) (i, Call_execute_and_evaluate_node))
                   slices) ∧
    (length (workers Scenario.proposed) ≤ length Scenario.pending ∨
     (∃ n0 s0, propose n0 s0 = (Ok Scenario.pending, Scenario.proposed)) →
     floor_sized Scenario.pending (length (workers Scenario.proposed)) slices) ∧
    (length (workers Scenario.proposed) = 3 → length Scenario.pending = 10 →
     length <$> slices = [3; 3; 4] ∧
     ray_calls (dispatch 0 Scenario.pending Scenario.proposed).2
     = ray_calls Scenario.proposed
       ++ replicate 3 (0, Call_execute_and_evaluate_node)
       ++ replicate 3 (1, Call_execute_and_evaluate_node)
       ++ replicate 4 (2, Call_execute_and_evaluate_node)).
Proof.
  assert (ray_initialized Scenario.proposed = true) as Hup by (vm_compute; reflexivity).
  assert (0 < length (workers Scenario.proposed)) as Hpool by (vm_compute; lia).
  split; [exact Hup |]. split; [exact Hpool |].
  exact (partition_step_slices 0 Scenario.pending Scenario.proposed Hup Hpool).
Defined.

Lemma partition_step_balanced_witness :
  propose 0 Demo.healthy = (Ok Scenario.pending, Scenario.proposed) ∧
  0 < length (workers Scenario.proposed) ∧
  ∃ slices,
    partition Scenario.pending (length (workers Scenario.proposed)) = Ok slices ∧
    length slices = length (workers Scenario.proposed) ∧
    sizes_within 1 slices ∧
    Forall (λ sl, length sl = nodes_per_worker Demo.healthy) slices.
Proof.
  assert (propose 0 Demo.healthy = (Ok Scenario.pending, Scenario.proposed)) as Hrun
    by (vm_compute; reflexivity).
  assert (0 < length (workers Scenario.proposed)) as Hpool by (vm_compute; lia).
  split; [exact Hrun |]. split; [exact Hpool |].
  exact (partition_step_balanced _ _ _ _ Hrun Hpool).
Defined.

Lemma step_appends_all_generated_witness :
  reachable "print(1)" (Demo.config 2 2 "logs") Demo.empty_journal Demo.healthy ∧
  step Demo.healthy = (Ok tt, (step Demo.healthy).2) ∧
  ∃ responses evaluated,
    Ok <$> responses
    = (λ w, (search_and_generate (nodes_per_worker Demo.healthy) w).1)
      <$> workers Demo.healthy ∧
    length responses = num_workers Demo.healthy ∧
    Forall (λ l, length l = nodes_per_worker Demo.healthy) responses ∧
    Ok <$> evaluated
    = concat (zip_with (λ w l, (run_tasks execute_and_evaluate_node l w).1)
                ((λ w, (search_and_generate (nodes_per_worker Demo.healthy) w).2)
                 <$> workers Demo.healthy)
                responses) ∧
    Forall2 evaluated_from (concat responses) evaluated ∧
    nodes (journal (step Demo.healthy).2) = nodes (journal Demo.healthy) ++ evaluated ∧
    length (nodes (journal (step Demo.healthy).2))
    = length (nodes (journal Demo.healthy))
      + num_workers Demo.healthy * nodes_per_worker Demo.healthy.
Proof.
  assert (reachable "print(1)" (Demo.config 2 2 "logs") Demo.empty_journal Demo.healthy)
    as Hreach by apply reachable_init.
  assert (step Demo.healthy = (Ok tt, (step Demo.healthy).2)) as Hstep
    by (vm_compute; reflexivity).
  split; [exact Hreach |]. split; [exact Hstep |].
  exact (step_appends_all_generated _ _ _ _ _ Hreach Hstep).
Defined.

Lemma step_assigns_evenly_witness :
  propose 0 Demo.healthy = (Ok Scenario.pending, Scenario.proposed) ∧
  0 < length (workers Demo.healthy) ∧
  ∃ responses,
    Ok <$> responses
    = (λ w, (search_and_generate (nodes_per_worker Demo.healthy) w).1)
      <$> workers Demo.healthy ∧
    Scenario.pending = concat responses ∧
    length responses = length (workers Scenario.proposed) ∧
    Forall (λ l, length l = nodes_per_worker Demo.healthy) responses ∧
    partition Scenario.pending (length (workers Scenario.proposed)) = Ok responses ∧
    (dispatch 0 Scenario.pending Scenario.proposed).1
    = Ok (concat (zip_with (λ w l, (run_tasks execute_and_evaluate_node l w).1)
                    (workers Scenario.proposed) responses)) ∧
    workers (dispatch 0 Scenario.pending Scenario.proposed).2
    = zip_with (λ w l, (run_tasks execute_and_evaluate_node l w).2)
        (workers Scenario.proposed) responses ∧
    ray_calls (dispatch 0 Scenario.pending Scenario.proposed).2
    = ray_calls Scenario.proposed
      ++ concat (imap (λ i l, replicate (length l) (i, Call_execute_and_evaluate_node))
                   responses).
Proof.
  assert (propose 0 Demo.healthy = (Ok Scenario.pending, Scenario.proposed)) as Hrun
    by (vm_compute; reflexivity).
  assert (0 < length (workers Demo.healthy)) as Hpool by (vm_compute; lia).
  split; [exact Hrun |]. split; [exact Hpool |].
  exact (step_assigns_evenly 0 _ _ _ Hrun Hpool).
Defined.

End SweepExamples.
